(** * norbertr: [random_walk], a random-walk approximation to one trajectory
    of a drift-diffusion model (src/random_walk.cpp).

    The C++ function works on IEEE-754 binary64 numbers ([double]) and on a
    32-bit signed counter ([int tic]).  Doubles are embedded as Rocq's
    primitive binary64 floats, so the definitions below evaluate as the
    compiled code does on an IEEE-754 target: round-to-nearest-even on every
    operation, a correctly rounded [sqrt], signed zeros, infinities and NaN,
    comparisons that are false on NaN.  The random source [R::runif(0, 1)]
    is external to the function: the embedding receives the successive
    draws as a list and consumes one per loop iteration.

    - Part I embeds the function.
    - Part II reads binary64 data as real numbers and proves that
      comparison, [+], [-] and [*] are the order and the correctly rounded
      operations of the reals.
    - Part III relates the loop to the sequence of states it goes through.
    - Part IV states and proves the properties of [random_walk]. *)

From Stdlib Require Import ZArith List Bool Lia Lra Psatz Floats Reals.
From Stdlib Require Uint63.
Import ListNotations.

Local Open Scope float_scope.

(** * Part I: the function *)

(** ** Data *)

(** The mutable locals of the loop: the position [x] and the counter [tic]. *)
Record state : Type := mkState { x : float; tic : Z }.

(** The named list handed back to R: [choice] and [time]. *)
Record result : Type := mkResult { choice : Z; time : float }.

(** How a call ends in the embedding: it returns [v] ([Done v]); or the loop
    is still running when the supplied draws run out ([Starved]); or
    [tic++] is reached with [tic = INT_MAX], a signed overflow, after which
    C++ defines no behaviour ([Undefined]). *)
Inductive outcome (A : Type) : Type :=
| Done (v : A)
| Starved
| Undefined.
Arguments Done {A} v.
Arguments Starved {A}.
Arguments Undefined {A}.

Definition INT_MAX : Z := 2147483647.

(** The conversion of an [int] to [double] in [tic * t_eps]
    (exact for every 32-bit value). *)
Definition double_of_int (n : Z) : float :=
  if (n <? 0)%Z then - of_uint63 (Uint63.of_Z (- n)) else of_uint63 (Uint63.of_Z n).

(** ** The function, piece by piece *)

(** Line 17, the default value of the fourth parameter: [t_eps = 1e-4]. *)
Definition t_eps_default : float := 0x1.a36e2eb1c432dp-14.

(** Line 19: [double delta = sqrt(t_eps);] *)
Definition delta_of (t_eps : float) : float := PrimFloat.sqrt t_eps.

(** Line 21: [double p = 0.5 * (1 + v * delta);] *)
Definition p_of (v t_eps : float) : float := 0.5 * (1 + v * delta_of t_eps).

(** Lines 23 and 25: [double x = a * b; int tic = 0;] *)
Definition init (b a : float) : state := mkState (a * b) 0.

(** Lines 33-41, the loop body for the draw [r]:
    [if (r < p) x = x + delta; else x = x - delta; tic++;] *)
Definition body (delta p r : float) (s : state) : state :=
  mkState (if r <? p then x s + delta else x s - delta) (tic s + 1).

(** Line 43, the loop test [(x < a) & (x > 0)]. *)
Definition continue (a : float) (s : state) : bool :=
  (x s <? a) && (0 <? x s).

(** Lines 31-43, the [do ... while] loop.  The body runs before the test.
    The result carries the final state and the draws left unused. *)
Fixpoint do_while (a delta p : float) (draws : list float) (s : state)
  : outcome (state * list float) :=
  match draws with
  | [] => Starved
  | r :: rest =>
      if (tic s =? INT_MAX)%Z then Undefined
      else
        let s' := body delta p r s in
        if continue a s' then do_while a delta p rest s' else Done (s', rest)
  end.

(** Lines 45-49, the classification of the final position:
    [if (x > a) choice = 1; else choice = 0;] *)
Definition classify (a xf : float) : Z := if a <? xf then 1 else 0.

(** Lines 51-52, the returned list, with [time = tic * t_eps]. *)
Definition report (a t_eps : float) (s : state) : result :=
  mkResult (classify a (x s)) (double_of_int (tic s) * t_eps).

(** The loop of a call, from the initial state. *)
Definition walk (b a v t_eps : float) (draws : list float)
  : outcome (state * list float) :=
  do_while a (delta_of t_eps) (p_of v t_eps) draws (init b a).

(** [random_walk(b, a, v, t_eps)] run against the draws [draws]. *)
Definition random_walk (b a v t_eps : float) (draws : list float)
  : outcome result :=
  match walk b a v t_eps draws with
  | Done (s, _) => Done (report a t_eps s)
  | Starved => Starved
  | Undefined => Undefined
  end.

(** [random_walk(b, a, v)], the fourth parameter left to its default. *)
Definition random_walk_default (b a v : float) (draws : list float)
  : outcome result :=
  random_walk b a v t_eps_default draws.

(** The states after each executed iteration, in order: the observable
    history of the loop, one entry per pass through the body. *)
Fixpoint trace (a delta p : float) (draws : list float) (s : state)
  : list state :=
  match draws with
  | [] => []
  | r :: rest =>
      if (tic s =? INT_MAX)%Z then []
      else
        let s' := body delta p r s in
        s' :: (if continue a s' then trace a delta p rest s' else [])
  end.

Definition walk_trace (b a v t_eps : float) (draws : list float) : list state :=
  trace a (delta_of t_eps) (p_of v t_eps) draws (init b a).

Local Close Scope float_scope.

(** * Part II: binary64 data read as real numbers *)

Module B64.

(** [2^e] and the value [m * 2^e] of a mantissa-exponent pair. *)
Definition bpow (e : Z) : R := powerRZ 2 e.
Definition F2R (m e : Z) : R := (IZR m * bpow e)%R.

(** [n] is [m / 2^k] rounded to the nearest integer, ties to even. *)
Definition rne_Z (k m n : Z) : Prop :=
  (2 * Z.abs (n * 2 ^ k - m) <= 2 ^ k)%Z /\
  (2 * Z.abs (n * 2 ^ k - m) = 2 ^ k -> Z.even n = true)%Z.

Local Open Scope R_scope.

(** [n * 2^F] is the multiple of [2^F] nearest to [v], ties to even [n]. *)
Definition rne_at (F : Z) (v : R) (n : Z) : Prop :=
  2 * (IZR n * bpow F - v) <= bpow F /\
  2 * (v - IZR n * bpow F) <= bpow F /\
  (2 * (IZR n * bpow F - v) = bpow F \/ 2 * (v - IZR n * bpow F) = bpow F ->
   Z.even n = true).

(** Infinities are read as [+-OMEGA = +-2^1024], just beyond every finite
    binary64 value, so that the order of the data is the order of the reals
    they stand for. *)
Definition OMEGA : R := bpow 1024.

(** [r] is the binary64 rounding of the positive real [v]: [v] lies in the
    binade [[2^(g-1), 2^g)], is rounded to a multiple of the unit
    [2^(fexp g)] of that binade, and overflows to [OMEGA]. *)
Definition round_pos (v r : R) : Prop :=
  exists g n,
    bpow (g - 1) <= v < bpow g /\
    rne_at (fexp prec emax g) v n /\
    r = Rmin (F2R n (fexp prec emax g)) OMEGA.

(** [r] is the binary64 rounding of the real [v]. *)
Definition rounds_to (v r : R) : Prop :=
  (v = 0 /\ r = 0) \/
  (0 < v /\ round_pos v r) \/
  (v < 0 /\ exists r', round_pos (- v) r' /\ r = - r').

(** The real number a binary64 datum stands for. *)
Definition SF2R (f : spec_float) : R :=
  match f with
  | S754_finite s m e => F2R (cond_Zopp s (Zpos m)) e
  | S754_infinity s => if s then - OMEGA else OMEGA
  | _ => 0
  end.

Definition SF_finite (f : spec_float) : bool :=
  match f with
  | S754_finite _ _ _ | S754_zero _ => true
  | _ => false
  end.

Definition SF_nan (f : spec_float) : bool :=
  match f with S754_nan => true | _ => false end.

(** What a comparison result says about two reals. *)
Definition cmp_R (c : option comparison) (r1 r2 : R) : Prop :=
  match c with
  | Some Lt => r1 < r2
  | Some Eq => r1 = r2
  | Some Gt => r2 < r1
  | None => False
  end.

Definition signed (s : bool) (r : R) : R := if s then - r else r.

Local Close Scope R_scope.

(** The same notions on primitive floats. *)
Definition FR (u : float) : R := SF2R (Prim2SF u).
Definition Ffinite (u : float) : bool := SF_finite (Prim2SF u).
Definition Fnan (u : float) : bool := SF_nan (Prim2SF u).

(** ** Powers of two *)

Lemma bpow_gt_0 e : (0 < bpow e)%R.
Proof. apply powerRZ_lt. lra. Qed.

Lemma bpow_add e1 e2 : bpow (e1 + e2) = (bpow e1 * bpow e2)%R.
Proof. apply powerRZ_add. lra. Qed.

Lemma bpow_0 : bpow 0 = 1%R.
Proof. reflexivity. Qed.

Lemma bpow_IZR k : (0 <= k)%Z -> bpow k = IZR (2 ^ k).
Proof.
  intros H. unfold bpow.
  rewrite <- (Z2Nat.id k H) at 1. rewrite <- pow_powerRZ.
  rewrite pow_IZR. rewrite Z2Nat.id by exact H. reflexivity.
Qed.

Lemma bpow_ge_1 k : (0 <= k)%Z -> (1 <= bpow k)%R.
Proof.
  intros H. rewrite bpow_IZR by exact H. apply IZR_le.
  pose proof (Z.pow_pos_nonneg 2 k). lia.
Qed.

Lemma bpow_le e1 e2 : (e1 <= e2)%Z -> (bpow e1 <= bpow e2)%R.
Proof.
  intros H. replace e2 with (e1 + (e2 - e1))%Z by lia.
  rewrite bpow_add. pose proof (bpow_gt_0 e1).
  pose proof (bpow_ge_1 (e2 - e1) ltac:(lia)). nra.
Qed.

Lemma F2R_shift m e k : (0 <= k)%Z -> F2R (m * 2 ^ k) e = F2R m (e + k).
Proof.
  intros H. unfold F2R. rewrite mult_IZR, bpow_add, <- bpow_IZR by exact H. ring.
Qed.

(** ** Binary digits, iterated shifts *)

Lemma digits2_bounds (m : positive) :
  (2 ^ (Zpos (digits2_pos m) - 1) <= Zpos m < 2 ^ Zpos (digits2_pos m))%Z.
Proof.
  induction m as [m IH|m IH|]; simpl digits2_pos.
  - rewrite Pos2Z.inj_succ. replace (Z.succ (Zpos (digits2_pos m)) - 1)%Z with (Z.succ (Zpos (digits2_pos m) - 1)) by lia.
    rewrite !Z.pow_succ_r by lia. lia.
  - rewrite Pos2Z.inj_succ. replace (Z.succ (Zpos (digits2_pos m)) - 1)%Z with (Z.succ (Zpos (digits2_pos m) - 1)) by lia.
    rewrite !Z.pow_succ_r by lia. lia.
  - simpl. lia.
Qed.

Lemma digits2_unique (m : positive) (d : Z) :
  (2 ^ (d - 1) <= Zpos m < 2 ^ d)%Z -> Zpos (digits2_pos m) = d.
Proof.
  intros [L U]. pose proof (digits2_bounds m) as [L' U'].
  assert (0 < d)%Z.
  { destruct (Z_lt_le_dec 0 d); [assumption|]. 
    destruct (Z.eq_dec d 0) as [->|]; [simpl in U; lia|].
    rewrite Z.pow_neg_r in U by lia. lia. }
  destruct (Z.lt_trichotomy (Zpos (digits2_pos m)) d) as [C|[C|C]]; [|exact C|].
  - assert (2 ^ Zpos (digits2_pos m) <= 2 ^ (d - 1))%Z by (apply Z.pow_le_mono_r; lia). lia.
  - assert (2 ^ d <= 2 ^ (Zpos (digits2_pos m) - 1))%Z by (apply Z.pow_le_mono_r; lia). lia.
Qed.

(** [SpecFloat.iter_pos] is plain iteration. *)
Lemma iter_pos_nat {A} (f : A -> A) (p : positive) (a : A) :
  SpecFloat.iter_pos f p a = Nat.iter (Pos.to_nat p) f a.
Proof.
  revert a. induction p as [p IH|p IH|]; intros a; simpl SpecFloat.iter_pos.
  - rewrite !IH. rewrite Pos2Nat.inj_xI.
    replace (S (2 * Pos.to_nat p)) with (Pos.to_nat p + (Pos.to_nat p + 1))%nat by lia.
    rewrite !Nat.iter_add. simpl. reflexivity.
  - rewrite !IH. rewrite Pos2Nat.inj_xO.
    replace (2 * Pos.to_nat p)%nat with (Pos.to_nat p + Pos.to_nat p)%nat by lia.
    rewrite Nat.iter_add. reflexivity.
  - reflexivity.
Qed.

(** One right shift of a non-negative mantissa: halve, keep the dropped bit
    as round bit, fold the old round bit into the sticky bit. *)
Lemma shr_1_nonneg (m : Z) (r s : bool) :
  (0 <= m)%Z ->
  shr_1 (Build_shr_record m r s) = Build_shr_record (m / 2) (Z.odd m) (r || s).
Proof.
  intros H. destruct m as [|q|q]; [reflexivity| |lia].
  destruct q as [q|q|]; unfold shr_1.
  - f_equal. rewrite Pos2Z.inj_xI. apply (Z.div_unique _ _ _ 1); lia.
  - f_equal. rewrite Pos2Z.inj_xO. apply (Z.div_unique _ _ _ 0); lia.
  - reflexivity.
Qed.

Lemma mod_pow2_succ (m n : Z) :
  (0 <= n)%Z ->
  (m mod 2 ^ (n + 1) = m mod 2 ^ n + 2 ^ n * ((m / 2 ^ n) mod 2))%Z.
Proof.
  intros H. rewrite Z.pow_add_r by lia. change (2 ^ 1)%Z with 2%Z.
  apply Z.rem_mul_r; [|lia]. pose proof (Z.pow_pos_nonneg 2 n). lia.
Qed.

Lemma odd_mod2 (m : Z) : (m mod 2 = if Z.odd m then 1 else 0)%Z.
Proof. rewrite Zmod_odd. reflexivity. Qed.

(** After [n + 1] shifts: the quotient by [2^(n+1)], the last dropped bit,
    and whether any earlier dropped bit was set. *)
Lemma shr_iter (m0 : Z) (n : nat) :
  (0 <= m0)%Z ->
  Nat.iter (S n) shr_1 (Build_shr_record m0 false false) =
  Build_shr_record (m0 / 2 ^ Z.of_nat (S n))
                   (Z.odd (m0 / 2 ^ Z.of_nat n))
                   (negb (m0 mod 2 ^ Z.of_nat n =? 0)%Z).
Proof.
  intros H. induction n as [|n IH].
  - change (Nat.iter 1 shr_1 ?a) with (shr_1 a).
    rewrite shr_1_nonneg by exact H. simpl Z.of_nat.
    rewrite Z.pow_0_r, Z.pow_1_r, Z.div_1_r, Z.mod_1_r. reflexivity.
  - change (Nat.iter (S (S n)) shr_1 ?a) with (shr_1 (Nat.iter (S n) shr_1 a)).
    rewrite IH. rewrite shr_1_nonneg by (apply Z.div_pos; [lia|apply Z.pow_pos_nonneg; lia]).
    f_equal.
    + rewrite Z.div_div by (try apply Z.pow_pos_nonneg; lia).
      f_equal. rewrite (Nat2Z.inj_succ (S n)), Z.pow_succ_r by lia. lia.
    + rewrite (Nat2Z.inj_succ n). unfold Z.succ.
      rewrite (mod_pow2_succ m0 (Z.of_nat n)) by lia. rewrite odd_mod2.
      pose proof (Z.mod_pos_bound m0 (2 ^ Z.of_nat n) ltac:(apply Z.pow_pos_nonneg; lia)).
      pose proof (Z.pow_pos_nonneg 2 (Z.of_nat n) ltac:(lia) ltac:(lia)).
      destruct (Z.odd (m0 / 2 ^ Z.of_nat n)); simpl.
      * symmetry. apply negb_true_iff. apply Z.eqb_neq. lia.
      * f_equal. f_equal. lia.
Qed.

(** Shifting by [k > 0] then rounding the mantissa by the location bits is
    rounding [m0 / 2^k] to nearest, ties to even. *)
Lemma shr_spec (m0 e k : Z) :
  (0 <= m0)%Z -> (0 < k)%Z ->
  exists mrs,
    shr (Build_shr_record m0 false false) e k = (mrs, (e + k)%Z) /\
    shr_m mrs = (m0 / 2 ^ k)%Z /\
    rne_Z k m0 (round_nearest_even (shr_m mrs) (loc_of_shr_record mrs)).
Proof.
  intros Hm Hk. destruct k as [|p|p]; try lia.
  unfold shr. rewrite iter_pos_nat.
  destruct (Pos2Nat.is_succ p) as [n Hn]. rewrite Hn.
  rewrite shr_iter by exact Hm.
  assert (Ek : Zpos p = Z.of_nat (S n)) by lia.
  eexists. split; [reflexivity|]. split; [cbn [shr_m]; rewrite Ek; reflexivity|].
  cbn [shr_m loc_of_shr_record].
  rewrite <- Ek. set (k := Zpos p) in *.
  assert (En : Z.of_nat n = (k - 1)%Z) by lia. rewrite En.
  pose proof (Z.pow_pos_nonneg 2 (k - 1) ltac:(lia) ltac:(lia)) as Hh.
  assert (E2 : (2 ^ k = 2 * 2 ^ (k - 1))%Z).
  { replace k with ((k - 1) + 1)%Z at 1 by lia. rewrite Z.pow_add_r by lia. simpl (2^1)%Z. lia. }
  pose proof (Z.div_mod m0 (2 ^ k) ltac:(lia)) as Hdm.
  pose proof (mod_pow2_succ m0 (k - 1) ltac:(lia)) as Hms.
  replace (k - 1 + 1)%Z with k in Hms by lia.
  rewrite odd_mod2 in Hms.
  pose proof (Z.mod_pos_bound m0 (2 ^ (k - 1)) Hh) as Hb.
  set (q := (m0 / 2 ^ k)%Z) in *.
  set (rho := (m0 mod 2 ^ k)%Z) in *.
  set (lo := (m0 mod 2 ^ (k - 1))%Z) in *.
  set (h := (2 ^ (k - 1))%Z) in *.
  unfold rne_Z. rewrite E2.
  destruct (Z.odd (m0 / h)) eqn:Ho; destruct (Z.eqb_spec lo 0) as [Hz|Hz];
    cbn [negb round_nearest_even].
  - (* tie *)
    destruct (Z.even q) eqn:Hev.
    + split; [lia|]. intros _. exact Hev.
    + split; [lia|]. intros _. rewrite Z.even_add, Hev. reflexivity.
  - split; lia.
  - split; lia.
  - split; lia.
Qed.

(** ** [binary_round_aux]: the mantissa it computes *)

Lemma fexp64 (z : Z) : fexp prec emax z = Z.max (z - 53) (-1074).
Proof. reflexivity. Qed.

Lemma pow2_pos (k : Z) : (0 <= k)%Z -> (0 < 2 ^ k)%Z.
Proof. intros. apply Z.pow_pos_nonneg; lia. Qed.

Lemma pow2_split (k : Z) : (0 < k)%Z -> (2 ^ k = 2 * 2 ^ (k - 1))%Z.
Proof.
  intros H. replace k with ((k - 1) + 1)%Z at 1 by lia.
  rewrite Z.pow_add_r by lia. change (2 ^ 1)%Z with 2%Z. lia.
Qed.

(** The mantissa produced by rounding [m0] (of [d] digits) at [k] dropped
    bits keeps [d - k] digits, or is the next power of two. *)
Lemma rne_Z_digits (m0 : positive) (k n : Z) :
  (0 <= k)%Z ->
  rne_Z k (Zpos m0) n ->
  let d := Zpos (digits2_pos m0) in
  (k = 0 /\ n = Zpos m0)%Z \/
  (0 < k /\ d <= k /\ (n = 0 \/ n = 1))%Z \/
  (0 < k < d /\ 2 ^ (d - k - 1) <= n <= 2 ^ (d - k))%Z.
Proof.
  intros Hk [Hr _] d. pose proof (digits2_bounds m0) as [Hlo Hhi]. fold d in Hlo, Hhi.
  assert (Hd : (0 < d)%Z) by (unfold d; lia).
  destruct (Z.eq_dec k 0) as [->|Hk0].
  { left. split; [reflexivity|]. rewrite Z.pow_0_r in Hr. lia. }
  right.
  pose proof (pow2_split k ltac:(lia)) as E2.
  pose proof (pow2_pos (k - 1) ltac:(lia)) as Hh.
  set (h := (2 ^ (k - 1))%Z) in *. rewrite E2 in Hr.
  assert (Hn : (n * (2 * h) - h <= Zpos m0 <= n * (2 * h) + h)%Z) by lia.
  destruct (Z_le_gt_dec d k) as [Hdk|Hdk].
  - left. split; [lia|]. split; [exact Hdk|].
    assert (2 ^ d <= 2 ^ k)%Z by (apply Z.pow_le_mono_r; lia).
    assert (n < 2)%Z by nia. assert (-1 < n)%Z by nia. lia.
  - right. split; [lia|].
    assert (Ed : (2 ^ d = 2 ^ (d - k) * (2 * h))%Z).
    { rewrite <- E2, <- Z.pow_add_r by lia. f_equal. lia. }
    assert (Ed1 : (2 ^ (d - 1) = 2 ^ (d - k - 1) * (2 * h))%Z).
    { rewrite <- E2, <- Z.pow_add_r by lia. f_equal. lia. }
    pose proof (pow2_pos (d - k - 1) ltac:(lia)).
    pose proof (pow2_pos (d - k) ltac:(lia)).
    split; nia.
Qed.

Lemma pow2_digits (j : Z) (q : positive) :
  (0 <= j)%Z -> Zpos q = (2 ^ j)%Z -> Zpos (digits2_pos q) = (j + 1)%Z.
Proof.
  intros Hj E. apply digits2_unique. replace (j + 1 - 1)%Z with j by lia.
  rewrite E, Z.pow_add_r by lia. change (2 ^ 1)%Z with 2%Z.
  pose proof (pow2_pos j Hj). lia.
Qed.

(** What [binary_round_aux] returns on an exact positive input whose
    exponent is not above the one its binade calls for: the mantissa rounded
    to nearest-even at that exponent, renormalised, or an infinity when that
    value reaches [2^1024]. *)
Lemma round_aux_spec (sx : bool) (m0 : positive) (ex : Z) :
  let F := fexp prec emax (Zpos (digits2_pos m0) + ex) in
  (ex <= F)%Z ->
  exists n : Z,
    rne_Z (F - ex) (Zpos m0) n /\ (0 <= n)%Z /\
    match binary_round_aux prec emax sx (Zpos m0) ex loc_Exact with
    | S754_zero s => s = sx /\ n = 0%Z
    | S754_finite s m e =>
        s = sx /\ F2R (Zpos m) e = F2R n F /\
        canonical_mantissa prec emax m e = true /\ (e <= 971)%Z
    | S754_infinity s => s = sx /\ (bpow 1024 <= F2R n F)%R
    | S754_nan => False
    end.
Proof.
  intros F HF. unfold binary_round_aux.
  assert (H1 : exists mrs,
             shr_fexp prec emax (Zpos m0) ex loc_Exact = (mrs, F) /\
             rne_Z (F - ex) (Zpos m0)
                   (round_nearest_even (shr_m mrs) (loc_of_shr_record mrs))).
  { unfold shr_fexp. cbn [Zdigits2 shr_record_of_loc]. fold F.
    destruct (Z.eq_dec (F - ex) 0) as [E|E].
    - rewrite E. exists (Build_shr_record (Zpos m0) false false). split.
      + unfold shr. f_equal. lia.
      + cbn [shr_m loc_of_shr_record round_nearest_even]. unfold rne_Z.
        rewrite Z.pow_0_r. split; lia.
    - destruct (shr_spec (Zpos m0) ex (F - ex)) as (mrs & Hs & _ & Hr); [lia|lia|].
      exists mrs. split; [rewrite Hs; f_equal; lia | exact Hr]. }
  destruct H1 as (mrs & -> & Hr).
  set (n := round_nearest_even (shr_m mrs) (loc_of_shr_record mrs)) in *.
  clearbody n. clear mrs.
  exists n. split; [exact Hr|].
  pose proof (rne_Z_digits m0 (F - ex) n ltac:(lia) Hr) as Hcases.
  cbv zeta in Hcases.
  set (d := Zpos (digits2_pos m0)) in *.
  assert (EF : F = Z.max (d + ex - 53) (-1074)) by (unfold F; rewrite fexp64; reflexivity).
  assert (Hd : (0 < d)%Z) by (unfold d; lia).
  (* the digits of a positive result and the exponent they call for *)
  assert (Hn : (n = 0 \/
               exists q, n = Zpos q /\
                 (fexp prec emax (Zpos (digits2_pos q) + F) = F \/
                  (fexp prec emax (Zpos (digits2_pos q) + F) = F + 1 /\
                   exists q', q = xO q' /\
                     fexp prec emax (Zpos (digits2_pos q') + (F + 1)) = F + 1)))%Z).
  { destruct Hcases as [[Hk ->]|[(Hk & Hdk & [->| ->])|(Hk & Hlo & Hhi)]].
    - right. exists m0. split; [reflexivity|]. left. fold d. rewrite fexp64. lia.
    - left. reflexivity.
    - right. exists 1%positive. split; [reflexivity|]. left.
      cbn [digits2_pos]. rewrite fexp64. lia.
    - destruct n as [|q|q].
      + pose proof (pow2_pos (d - (F - ex) - 1) ltac:(lia)). lia.
      + right. exists q. split; [reflexivity|].
        destruct (Z.eq_dec (Zpos q) (2 ^ (d - (F - ex)))) as [E|E].
        * pose proof (pow2_digits (d - (F - ex)) q ltac:(lia) E) as Hdq.
          rewrite Hdq, fexp64.
          destruct (Z_le_gt_dec (-1074) (d + ex - 53)) as [Hnorm|Hsub].
          -- right. split; [lia|].
             rewrite (pow2_split (d - (F - ex))) in E by lia.
             destruct q as [q'|q'|]; try lia.
             exists q'. split; [reflexivity|].
             assert (E' : Zpos q' = (2 ^ (d - (F - ex) - 1))%Z) by lia.
             rewrite (pow2_digits (d - (F - ex) - 1) q' ltac:(lia) E'), fexp64. lia.
          -- left. lia.
        * left. rewrite (digits2_unique q (d - (F - ex))) by lia.
          rewrite fexp64. lia.
      + pose proof (pow2_pos (d - (F - ex) - 1) ltac:(lia)). lia. }
  split; [destruct Hn as [->|(q & -> & _)]; lia|].
  unfold shr_fexp.
  destruct Hn as [->|(q & -> & [Hq|(Hq & q' & -> & Hq')])].
  - cbn [Zdigits2 shr_record_of_loc]. rewrite Z.add_0_l, fexp64.
    destruct (Z.max (F - 53) (-1074) - F)%Z eqn:E; [|lia|]; cbn [shr shr_m]; auto.
  - cbn [Zdigits2 shr_record_of_loc]. rewrite Hq, Z.sub_diag.
    cbn [shr shr_m]. unfold emax, prec. change (1024 - 53)%Z with 971%Z.
    destruct (Z.leb_spec F 971) as [L|L].
    + split; [reflexivity|]. split; [reflexivity|]. split; [|exact L].
      unfold canonical_mantissa. apply Z.eqb_eq. exact Hq.
    + split; [reflexivity|].
      (* overflow: the mantissa has 53 digits *)
      rewrite fexp64 in Hq.
      pose proof (digits2_bounds q) as [Hlo _].
      assert (Zpos (digits2_pos q) = 53)%Z as E53 by lia. rewrite E53 in Hlo.
      unfold F2R. change (bpow 1024) with (bpow (52 + 972)). rewrite bpow_add.
      rewrite (bpow_IZR 52) by lia.
      pose proof (bpow_le 972 F ltac:(lia)). pose proof (bpow_gt_0 972).
      apply IZR_le in Hlo. change (53 - 1)%Z with 52%Z in Hlo.
      assert (0 < IZR (2 ^ 52))%R by (apply IZR_lt; reflexivity).
      nra.
  - cbn [Zdigits2 shr_record_of_loc]. rewrite Hq.
    replace (F + 1 - F)%Z with 1%Z by lia.
    cbn [shr SpecFloat.iter_pos shr_1 shr_m orb]. unfold emax, prec.
    change (1024 - 53)%Z with 971%Z. change (F + 1)%Z with (F + 1)%Z.
    assert (EV : F2R (Zpos q') (F + 1) = F2R (Zpos q'~0) F).
    { rewrite <- F2R_shift by lia. f_equal. rewrite Z.pow_1_r. lia. }
    destruct (Z.leb_spec (F + 1) 971) as [L|L].
    + split; [reflexivity|]. split; [exact EV|]. split; [|exact L].
      unfold canonical_mantissa. apply Z.eqb_eq. exact Hq'.
    + split; [reflexivity|]. rewrite <- EV.
      rewrite fexp64 in Hq'.
      pose proof (digits2_bounds q') as [Hlo _].
      assert (Zpos (digits2_pos q') = 53)%Z as E53 by lia. rewrite E53 in Hlo.
      unfold F2R. change (bpow 1024) with (bpow (52 + 972)). rewrite bpow_add.
      rewrite (bpow_IZR 52) by lia.
      pose proof (bpow_le 972 (F + 1) ltac:(lia)). pose proof (bpow_gt_0 972).
      apply IZR_le in Hlo. change (53 - 1)%Z with 52%Z in Hlo.
      assert (0 < IZR (2 ^ 52))%R by (apply IZR_lt; reflexivity).
      nra.
Qed.

(** ** Rounding reals to nearest, ties to even *)

Local Open Scope R_scope.

Lemma rne_Z_at (e k m n : Z) :
  (0 <= k)%Z -> rne_Z k m n -> rne_at (e + k) (F2R m e) n.
Proof.
  intros Hk [H1 H2]. unfold rne_at, F2R.
  rewrite bpow_add, (bpow_IZR k) by exact Hk.
  pose proof (bpow_gt_0 e) as He.
  set (z := (n * 2 ^ k - m)%Z) in *.
  assert (Ez : IZR n * (bpow e * IZR (2 ^ k)) - IZR m * bpow e = IZR z * bpow e).
  { unfold z. rewrite minus_IZR, mult_IZR. ring. }
  assert (Hz1 : (2 * z <= 2 ^ k)%Z) by lia.
  assert (Hz2 : (- 2 ^ k <= 2 * z)%Z) by lia.
  apply IZR_le in Hz1, Hz2. rewrite mult_IZR in Hz1, Hz2. rewrite opp_IZR in Hz2.
  split; [|split].
  - rewrite Ez. nra.
  - replace (IZR m * bpow e - IZR n * (bpow e * IZR (2 ^ k))) with (- (IZR z * bpow e)) by lra.
    nra.
  - intros [T|T]; apply H2.
    + rewrite Ez in T.
      assert (2 * IZR z = IZR (2 ^ k)) by nra.
      rewrite <- mult_IZR in H. apply eq_IZR in H. lia.
    + replace (IZR m * bpow e - IZR n * (bpow e * IZR (2 ^ k))) with (- (IZR z * bpow e)) in T by lra.
      assert (2 * IZR (- z) = IZR (2 ^ k)) by (rewrite opp_IZR; nra).
      rewrite <- mult_IZR in H. apply eq_IZR in H. lia.
Qed.

Lemma fexp_mono (g1 g2 : Z) :
  (g1 <= g2)%Z -> (fexp prec emax g1 <= fexp prec emax g2)%Z.
Proof. intros. rewrite !fexp64. lia. Qed.

(** Rounding to nearest at one scale is monotone. *)
Lemma rne_at_mono (F : Z) (v1 v2 : R) (n1 n2 : Z) :
  v1 <= v2 -> rne_at F v1 n1 -> rne_at F v2 n2 -> (n1 <= n2)%Z.
Proof.
  intros Hv (A1 & B1 & T1) (A2 & B2 & T2).
  pose proof (bpow_gt_0 F) as HB. set (B := bpow F) in *.
  destruct (Z_le_gt_dec n1 n2) as [L|G]; [exact L|exfalso].
  assert (n2 + 1 <= n1)%Z as L by lia. apply IZR_le in L. rewrite plus_IZR in L.
  assert (E1 : IZR n1 * B >= IZR n2 * B + B) by nra.
  assert (Ev1 : 2 * (IZR n1 * B - v1) = B) by lra.
  assert (Ev2 : 2 * (v2 - IZR n2 * B) = B) by lra.
  assert (En : IZR n1 * B = IZR n2 * B + B) by lra.
  assert (IZR n1 = IZR n2 + 1) as En' by nra.
  rewrite <- plus_IZR in En'. apply eq_IZR in En'.
  specialize (T1 (or_introl Ev1)). specialize (T2 (or_intror Ev2)).
  rewrite En', Z.even_add, T2 in T1. discriminate.
Qed.

Lemma IZR_le_half (a b : Z) : IZR a <= IZR b + / 2 -> (a <= b)%Z.
Proof.
  intros H. destruct (Z_le_gt_dec a b) as [L|G]; [exact L|].
  assert (b + 1 <= a)%Z as L by lia. apply IZR_le in L. rewrite plus_IZR in L. lra.
Qed.

Lemma rne_at_of_exact (F : Z) (j : Z) : rne_at F (IZR j * bpow F) j.
Proof.
  pose proof (bpow_gt_0 F). unfold rne_at.
  split; [lra|]. split; [lra|]. intros [T|T]; lra.
Qed.

(** Bounds on the rounded value from bounds on the exact one, when the
    bounds are multiples of the rounding unit. *)
Lemma rne_at_le (F : Z) (v : R) (n j : Z) :
  rne_at F v n -> v <= IZR j * bpow F -> (n <= j)%Z.
Proof.
  intros (A & _ & _) Hv. pose proof (bpow_gt_0 F) as HB.
  apply IZR_le_half. set (P := bpow F) in *. nra.
Qed.

Lemma rne_at_ge (F : Z) (v : R) (n j : Z) :
  rne_at F v n -> IZR j * bpow F <= v -> (j <= n)%Z.
Proof.
  intros (_ & B & _) Hv. pose proof (bpow_gt_0 F) as HB.
  apply IZR_le_half. set (P := bpow F) in *. nra.
Qed.

Lemma bpow_split (g F : Z) : (F <= g)%Z -> bpow g = IZR (2 ^ (g - F)) * bpow F.
Proof.
  intros H. rewrite <- bpow_IZR by lia. rewrite <- bpow_add. f_equal. lia.
Qed.

Lemma Rmin_mono (a b c : R) : a <= b -> Rmin a c <= Rmin b c.
Proof. intros. unfold Rmin. destruct (Rle_dec a c), (Rle_dec b c); lra. Qed.

(** Rounding of positive reals is monotone, across scales too. *)
Lemma round_pos_mono (v1 v2 r1 r2 : R) :
  v1 <= v2 -> round_pos v1 r1 -> round_pos v2 r2 -> r1 <= r2.
Proof.
  intros Hv (g1 & n1 & [L1 U1] & R1 & ->) (g2 & n2 & [L2 U2] & R2 & ->).
  apply Rmin_mono. unfold F2R.
  assert (Hg : (g1 <= g2)%Z).
  { destruct (Z_le_gt_dec g1 g2) as [L|G]; [exact L|exfalso].
    pose proof (bpow_le g2 (g1 - 1) ltac:(lia)). lra. }
  pose proof (fexp_mono _ _ Hg) as HF.
  pose proof (fexp64 g1) as EF1. pose proof (fexp64 g2) as EF2.
  set (F1 := fexp prec emax g1) in *. set (F2 := fexp prec emax g2) in *.
  clearbody F1 F2.
  destruct (Z.eq_dec F1 F2) as [E|NE].
  - rewrite <- E in *. pose proof (rne_at_mono F1 v1 v2 n1 n2 Hv R1 R2) as Hn.
    apply IZR_le in Hn. pose proof (bpow_gt_0 F1). nra.
  - assert (HF' : (F1 < F2)%Z) by lia.
    assert (E2 : F2 = (g2 - 53)%Z) by lia.
    assert (Hg' : (g1 < g2)%Z) by lia.
    set (G1 := Z.max g1 F1).
    (* the rounded v1 stays below 2^G1 *)
    assert (H1 : IZR n1 * bpow F1 <= bpow G1).
    { rewrite (bpow_split G1 F1) by (unfold G1; lia).
      pose proof (bpow_gt_0 F1).
      assert (n1 <= 2 ^ (G1 - F1))%Z as Hn.
      { apply (rne_at_le F1 v1); [exact R1|].
        rewrite <- bpow_split by (unfold G1; lia).
        pose proof (bpow_le g1 G1 ltac:(unfold G1; lia)). lra. }
      apply IZR_le in Hn. nra. }
    (* the rounded v2 stays above 2^(g2-1) *)
    assert (H2 : bpow (g2 - 1) <= IZR n2 * bpow F2).
    { rewrite (bpow_split (g2 - 1) F2) by lia.
      pose proof (bpow_gt_0 F2).
      assert (2 ^ (g2 - 1 - F2) <= n2)%Z as Hn.
      { apply (rne_at_ge F2 v2); [exact R2|].
        rewrite <- bpow_split by lia. lra. }
      apply IZR_le in Hn. nra. }
    pose proof (bpow_le G1 (g2 - 1) ltac:(unfold G1; lia)). lra.
Qed.

Lemma OMEGA_pos : 0 < OMEGA.
Proof. apply bpow_gt_0. Qed.

Lemma round_pos_nonneg (v r : R) : round_pos v r -> 0 <= r.
Proof.
  intros (g & n & [L U] & Rn & ->).
  assert (0 <= n)%Z as Hn.
  { apply (rne_at_ge (fexp prec emax g) v n 0 Rn).
    pose proof (bpow_gt_0 (g - 1)). lra. }
  apply IZR_le in Hn. pose proof (bpow_gt_0 (fexp prec emax g)). pose proof OMEGA_pos.
  unfold F2R, Rmin. destruct (Rle_dec _ _); nra.
Qed.

Lemma rounds_to_mono (v1 v2 r1 r2 : R) :
  v1 <= v2 -> rounds_to v1 r1 -> rounds_to v2 r2 -> r1 <= r2.
Proof.
  intros Hv [[E1 ->]|[[P1 H1]|(N1 & r1' & H1 & ->)]] [[E2 ->]|[[P2 H2]|(N2 & r2' & H2 & ->)]];
    try lra;
    try (pose proof (round_pos_nonneg _ _ H1)); try (pose proof (round_pos_nonneg _ _ H2));
    try lra.
  - exact (round_pos_mono _ _ _ _ Hv H1 H2).
  - assert (- v2 <= - v1) as Hv' by lra.
    pose proof (round_pos_mono _ _ _ _ Hv' H2 H1). lra.
Qed.

Lemma rounds_to_unique (v r1 r2 : R) : rounds_to v r1 -> rounds_to v r2 -> r1 = r2.
Proof.
  intros H1 H2.
  pose proof (rounds_to_mono v v r1 r2 (Rle_refl v) H1 H2).
  pose proof (rounds_to_mono v v r2 r1 (Rle_refl v) H2 H1). lra.
Qed.

Lemma rounds_to_opp (v r : R) : rounds_to v r -> rounds_to (- v) (- r).
Proof.
  intros [[-> ->]|[[P H]|(N & r' & H & ->)]].
  - left. split; lra.
  - right. right. split; [lra|]. exists r. rewrite Ropp_involutive. auto.
  - right. left. split; [lra|]. rewrite Ropp_involutive. exact H.
Qed.

(** ** The values of binary64 data *)

Lemma F2R_pos (m : positive) (e : Z) : 0 < F2R (Zpos m) e.
Proof.
  unfold F2R. pose proof (bpow_gt_0 e).
  assert (0 < IZR (Zpos m)) by (apply IZR_lt; lia). nra.
Qed.

Lemma F2R_opp (m e : Z) : F2R (- m) e = - F2R m e.
Proof. unfold F2R. rewrite opp_IZR. ring. Qed.

Lemma F2R_mag (m : positive) (e : Z) :
  bpow (Zpos (digits2_pos m) + e - 1) <= F2R (Zpos m) e < bpow (Zpos (digits2_pos m) + e).
Proof.
  pose proof (digits2_bounds m) as [L U]. set (d := Zpos (digits2_pos m)) in *.
  assert (0 < d)%Z by (unfold d; lia).
  apply IZR_le in L. apply IZR_lt in U.
  rewrite <- bpow_IZR in L, U by lia.
  unfold F2R. pose proof (bpow_gt_0 e).
  replace (d + e - 1)%Z with ((d - 1) + e)%Z by lia.
  rewrite !bpow_add. split; nra.
Qed.

Lemma canonical_exp (m : positive) (e : Z) :
  canonical_mantissa prec emax m e = true ->
  fexp prec emax (Zpos (digits2_pos m) + e) = e.
Proof. unfold canonical_mantissa. intros H. apply Z.eqb_eq in H. exact H. Qed.

Lemma valid_finite (s : bool) (m : positive) (e : Z) :
  valid_binary (S754_finite s m e) = true ->
  fexp prec emax (Zpos (digits2_pos m) + e) = e /\ (e <= 971)%Z.
Proof.
  cbn [SpecFloat.valid_binary]. unfold SpecFloat.bounded. intros H.
  apply andb_true_iff in H. destruct H as [H1 H2].
  split; [apply canonical_exp; exact H1|]. apply Z.leb_le in H2. exact H2.
Qed.

Lemma canonical_lt_OMEGA (m : positive) (e : Z) :
  fexp prec emax (Zpos (digits2_pos m) + e) = e -> (e <= 971)%Z ->
  F2R (Zpos m) e < OMEGA.
Proof.
  intros C L. rewrite fexp64 in C. pose proof (F2R_mag m e) as [_ U].
  pose proof (bpow_le (Zpos (digits2_pos m) + e) 1024 ltac:(lia)).
  unfold OMEGA. lra.
Qed.

Lemma canonical_round_pos (m : positive) (e : Z) :
  fexp prec emax (Zpos (digits2_pos m) + e) = e -> (e <= 971)%Z ->
  round_pos (F2R (Zpos m) e) (F2R (Zpos m) e).
Proof.
  intros C L. exists (Zpos (digits2_pos m) + e)%Z, (Zpos m).
  split; [apply F2R_mag|]. rewrite C. split; [apply rne_at_of_exact|].
  pose proof (canonical_lt_OMEGA m e C L). unfold Rmin.
  destruct (Rle_dec _ _); lra.
Qed.

(** Every finite binary64 value rounds to itself. *)
Lemma valid_rounds_to (f : spec_float) :
  valid_binary f = true -> SF_finite f = true -> rounds_to (SF2R f) (SF2R f).
Proof.
  intros V Fi. destruct f as [s|s| |s m e]; try discriminate.
  - left. split; reflexivity.
  - apply valid_finite in V. destruct V as [C L].
    pose proof (canonical_round_pos m e C L) as H. pose proof (F2R_pos m e).
    cbn [SF2R]. destruct s; cbn [cond_Zopp].
    + change (Z.neg m) with (- Zpos m)%Z. rewrite F2R_opp.
      right. right. split; [lra|]. exists (F2R (Zpos m) e).
      rewrite Ropp_involutive. auto.
    + right. left. auto.
Qed.

Lemma valid_abs_lt_OMEGA (f : spec_float) :
  valid_binary f = true -> SF_finite f = true -> - OMEGA < SF2R f < OMEGA.
Proof.
  intros V Fi. pose proof OMEGA_pos. destruct f as [s|s| |s m e]; try discriminate.
  - cbn [SF2R]. lra.
  - apply valid_finite in V. destruct V as [C L].
    pose proof (canonical_lt_OMEGA m e C L). pose proof (F2R_pos m e).
    cbn [SF2R]. destruct s; cbn [cond_Zopp].
    + change (Z.neg m) with (- Zpos m)%Z. rewrite F2R_opp. lra.
    + lra.
Qed.

(** ** Comparison *)

Lemma canonical_exp_lt (m1 m2 : positive) (e1 e2 : Z) :
  fexp prec emax (Zpos (digits2_pos m1) + e1) = e1 ->
  fexp prec emax (Zpos (digits2_pos m2) + e2) = e2 ->
  (e1 < e2)%Z ->
  F2R (Zpos m1) e1 < F2R (Zpos m2) e2.
Proof.
  intros C1 C2 L. rewrite fexp64 in C1, C2.
  pose proof (F2R_mag m1 e1) as [_ U]. pose proof (F2R_mag m2 e2) as [Lo _].
  pose proof (bpow_le (Zpos (digits2_pos m1) + e1) (Zpos (digits2_pos m2) + e2 - 1) ltac:(lia)).
  lra.
Qed.

Lemma F2R_lt_same_exp (m1 m2 e : Z) : (m1 < m2)%Z -> F2R m1 e < F2R m2 e.
Proof.
  intros L. apply IZR_lt in L. pose proof (bpow_gt_0 e). unfold F2R. nra.
Qed.

Lemma SFcompare_pos (m1 m2 : positive) (e1 e2 : Z) :
  fexp prec emax (Zpos (digits2_pos m1) + e1) = e1 ->
  fexp prec emax (Zpos (digits2_pos m2) + e2) = e2 ->
  cmp_R (Some match (e1 ?= e2)%Z with
              | Lt => Lt
              | Gt => Gt
              | Eq => Pos.compare_cont Eq m1 m2
              end) (F2R (Zpos m1) e1) (F2R (Zpos m2) e2).
Proof.
  intros C1 C2. destruct (Z.compare_spec e1 e2) as [E|L|G].
  - subst e2. change (Pos.compare_cont Eq m1 m2) with (m1 ?= m2)%positive.
    destruct (Pos.compare_spec m1 m2) as [Em|Lm|Gm]; cbn [cmp_R].
    + subst. reflexivity.
    + apply F2R_lt_same_exp. lia.
    + apply F2R_lt_same_exp. lia.
  - cbn [cmp_R]. apply canonical_exp_lt; assumption.
  - cbn [cmp_R]. apply canonical_exp_lt; assumption.
Qed.

Lemma cmp_R_opp (c : comparison) (r1 r2 : R) :
  cmp_R (Some c) r1 r2 -> cmp_R (Some (CompOpp c)) (- r1) (- r2).
Proof. destruct c; cbn [cmp_R CompOpp]; lra. Qed.

(** Comparison of binary64 data is comparison of the reals they stand for. *)
Lemma SFcompare_R (f1 f2 : spec_float) :
  valid_binary f1 = true -> valid_binary f2 = true ->
  SF_nan f1 = false -> SF_nan f2 = false ->
  cmp_R (SFcompare f1 f2) (SF2R f1) (SF2R f2).
Proof.
  intros V1 V2 N1 N2. pose proof OMEGA_pos as HO.
  destruct f1 as [s1|s1| |s1 m1 e1]; try discriminate;
  destruct f2 as [s2|s2| |s2 m2 e2]; try discriminate;
    try pose proof (valid_abs_lt_OMEGA _ V1 eq_refl) as B1;
    try pose proof (valid_abs_lt_OMEGA _ V2 eq_refl) as B2.
  - cbn. reflexivity.
  - cbn [SFcompare SF2R cmp_R] in *. destruct s2; cbn [cmp_R]; lra.
  - cbn [SFcompare SF2R cmp_R cond_Zopp] in *. pose proof (F2R_pos m2 e2).
    destruct s2; cbn [cmp_R cond_Zopp].
    + change (Z.neg m2) with (- Zpos m2)%Z. rewrite F2R_opp. lra.
    + lra.
  - cbn [SFcompare SF2R cmp_R] in *. destruct s1; cbn [cmp_R]; lra.
  - cbn [SFcompare SF2R]. destruct s1, s2; cbn [cmp_R]; lra.
  - cbn [SFcompare]. cbn [SF2R] in B2 |- *. destruct s1; cbn [cmp_R]; lra.
  - cbn [SFcompare SF2R cmp_R cond_Zopp] in *. pose proof (F2R_pos m1 e1).
    destruct s1; cbn [cmp_R cond_Zopp].
    + change (Z.neg m1) with (- Zpos m1)%Z. rewrite F2R_opp. lra.
    + lra.
  - cbn [SFcompare]. cbn [SF2R] in B1 |- *. destruct s2; cbn [cmp_R]; lra.
  - apply valid_finite in V1, V2. destruct V1 as [C1 _], V2 as [C2 _].
    pose proof (F2R_pos m1 e1). pose proof (F2R_pos m2 e2).
    cbn [SFcompare SF2R]. destruct s1, s2; cbn [cond_Zopp].
    + change (Z.neg m1) with (- Zpos m1)%Z. change (Z.neg m2) with (- Zpos m2)%Z.
      rewrite !F2R_opp.
      pose proof (cmp_R_opp _ _ _ (SFcompare_pos m1 m2 e1 e2 C1 C2)) as H1.
      destruct (e1 ?= e2)%Z; exact H1.
    + change (Z.neg m1) with (- Zpos m1)%Z. rewrite F2R_opp. cbn [cmp_R]. lra.
    + change (Z.neg m2) with (- Zpos m2)%Z. rewrite F2R_opp. cbn [cmp_R]. lra.
    + exact (SFcompare_pos m1 m2 e1 e2 C1 C2).
Qed.

Lemma SFltb_R (f1 f2 : spec_float) :
  valid_binary f1 = true -> valid_binary f2 = true ->
  SF_nan f1 = false -> SF_nan f2 = false ->
  (SFltb f1 f2 = true <-> SF2R f1 < SF2R f2).
Proof.
  intros V1 V2 N1 N2. pose proof (SFcompare_R f1 f2 V1 V2 N1 N2) as H.
  unfold SFltb. destruct (SFcompare f1 f2) as [[]|]; cbn [cmp_R] in H;
    split; intros; try discriminate; try reflexivity; try lra; contradiction.
Qed.

Lemma SFleb_R (f1 f2 : spec_float) :
  valid_binary f1 = true -> valid_binary f2 = true ->
  SF_nan f1 = false -> SF_nan f2 = false ->
  (SFleb f1 f2 = true <-> SF2R f1 <= SF2R f2).
Proof.
  intros V1 V2 N1 N2. pose proof (SFcompare_R f1 f2 V1 V2 N1 N2) as H.
  unfold SFleb. destruct (SFcompare f1 f2) as [[]|]; cbn [cmp_R] in H;
    split; intros; try discriminate; try reflexivity; try lra; contradiction.
Qed.

Lemma SFcompare_nan (f1 f2 : spec_float) :
  SFcompare f1 f2 <> None -> SF_nan f1 = false /\ SF_nan f2 = false.
Proof. destruct f1, f2; cbn; intros H; auto; try contradiction. Qed.

(** ** Rounding operations *)

(** [binary_round_aux] on an exact positive input rounds its value. *)
Lemma round_aux_R (sx : bool) (m0 : positive) (ex : Z) :
  (ex <= fexp prec emax (Zpos (digits2_pos m0) + ex))%Z ->
  exists rho,
    round_pos (F2R (Zpos m0) ex) rho /\
    SF_nan (binary_round_aux prec emax sx (Zpos m0) ex loc_Exact) = false /\
    SF2R (binary_round_aux prec emax sx (Zpos m0) ex loc_Exact) = signed sx rho.
Proof.
  intros HF. destruct (round_aux_spec sx m0 ex HF) as (n & Hr & Hn & Hres).
  set (F := fexp prec emax (Zpos (digits2_pos m0) + ex)) in *.
  exists (Rmin (F2R n F) OMEGA). split.
  - exists (Zpos (digits2_pos m0) + ex)%Z, n. fold F.
    split; [apply F2R_mag|]. split; [|reflexivity].
    replace F with (ex + (F - ex))%Z at 1 by lia.
    apply rne_Z_at; [lia|exact Hr].
  - pose proof OMEGA_pos.
    destruct (binary_round_aux prec emax sx (Zpos m0) ex loc_Exact) as [s|s| |s m e].
    + destruct Hres as [-> ->]. split; [reflexivity|]. cbn [SF2R].
      unfold F2R. rewrite Rmult_0_l. unfold Rmin. destruct (Rle_dec _ _); destruct sx; cbn [signed]; lra.
    + destruct Hres as [-> Ho]. split; [reflexivity|]. cbn [SF2R].
      unfold Rmin. destruct (Rle_dec _ _); destruct sx; cbn [signed]; unfold OMEGA in *; lra.
    + contradiction.
    + destruct Hres as (-> & Ev & C & L). split; [reflexivity|]. cbn [SF2R].
      pose proof (canonical_lt_OMEGA m e (canonical_exp _ _ C) L) as Hlt.
      rewrite Ev in Hlt. unfold Rmin. destruct (Rle_dec _ _); [|lra].
      rewrite <- Ev. destruct sx; cbn [signed cond_Zopp]; [|reflexivity].
      change (Z.neg m) with (- Zpos m)%Z. apply F2R_opp.
Qed.

Lemma iter_xO (m d : positive) : Zpos (Pos.iter xO m d) = (Zpos m * 2 ^ Zpos d)%Z.
Proof.
  induction d as [|d IH] using Pos.peano_ind.
  - cbn. lia.
  - rewrite Pos.iter_succ, Pos2Z.inj_xO, IH, Pos2Z.inj_succ, Z.pow_succ_r by lia. lia.
Qed.

Lemma digits2_shift (m q : positive) (k : Z) :
  (0 <= k)%Z -> Zpos q = (Zpos m * 2 ^ k)%Z ->
  Zpos (digits2_pos q) = (Zpos (digits2_pos m) + k)%Z.
Proof.
  intros Hk E. apply digits2_unique. rewrite E.
  pose proof (digits2_bounds m) as [L U]. pose proof (pow2_pos k Hk).
  replace (Zpos (digits2_pos m) + k - 1)%Z with ((Zpos (digits2_pos m) - 1) + k)%Z by lia.
  rewrite !Z.pow_add_r by lia. split; nia.
Qed.

(** [binary_round] rounds the value of any positive mantissa-exponent pair. *)
Lemma binary_round_R (sx : bool) (mx : positive) (ex : Z) :
  exists rho,
    round_pos (F2R (Zpos mx) ex) rho /\
    SF_nan (binary_round prec emax sx mx ex) = false /\
    SF2R (binary_round prec emax sx mx ex) = signed sx rho.
Proof.
  unfold binary_round, shl_align.
  set (F := fexp prec emax (Zpos (digits2_pos mx) + ex)).
  destruct (F - ex)%Z as [|d|d] eqn:E.
  - apply round_aux_R. fold F. lia.
  - apply round_aux_R. fold F. lia.
  - pose proof (iter_xO mx d) as Hq. set (q := Pos.iter xO mx d) in *.
    assert (Ev : F2R (Zpos q) F = F2R (Zpos mx) ex).
    { rewrite Hq, F2R_shift by lia. f_equal. lia. }
    rewrite <- Ev. apply round_aux_R.
    rewrite (digits2_shift mx q (Zpos d)) by (lia || exact Hq).
    replace (Zpos (digits2_pos mx) + Zpos d + F)%Z with (Zpos (digits2_pos mx) + ex)%Z by lia.
    fold F. lia.
Qed.

Lemma binary_normalize_R (z ez : Z) (sz : bool) :
  SF_nan (binary_normalize prec emax z ez sz) = false /\
  rounds_to (F2R z ez) (SF2R (binary_normalize prec emax z ez sz)).
Proof.
  destruct z as [|m|m]; cbn [binary_normalize].
  - split; [reflexivity|]. left. unfold F2R. cbn [SF2R]. split; lra.
  - destruct (binary_round_R false m ez) as (rho & Hr & Hn & Hv).
    split; [exact Hn|]. right. left. split; [apply F2R_pos|]. rewrite Hv. exact Hr.
  - destruct (binary_round_R true m ez) as (rho & Hr & Hn & Hv).
    split; [exact Hn|]. right. right.
    change (Z.neg m) with (- Zpos m)%Z. rewrite F2R_opp. pose proof (F2R_pos m ez).
    split; [lra|]. exists rho. rewrite Ropp_involutive. split; [exact Hr|exact Hv].
Qed.

Lemma shl_align_F2R (mx : positive) (ex ez : Z) :
  (ez <= ex)%Z ->
  F2R (Zpos (fst (shl_align mx ex ez))) ez = F2R (Zpos mx) ex.
Proof.
  intros H. unfold shl_align. destruct (ez - ex)%Z as [|d|d] eqn:E; cbn [fst].
  - f_equal. lia.
  - lia.
  - rewrite iter_xO, F2R_shift by lia. f_equal. lia.
Qed.

Lemma SF2R_finite (s : bool) (m : positive) (e : Z) :
  SF2R (S754_finite s m e) = signed s (F2R (Zpos m) e).
Proof.
  cbn [SF2R]. destruct s; cbn [signed cond_Zopp]; [|reflexivity].
  change (Z.neg m) with (- Zpos m)%Z. apply F2R_opp.
Qed.

Lemma F2R_cond_Zopp (s : bool) (m : positive) (e : Z) :
  F2R (cond_Zopp s (Zpos m)) e = signed s (F2R (Zpos m) e).
Proof. exact (SF2R_finite s m e). Qed.

Lemma F2R_plus (m1 m2 e : Z) : F2R (m1 + m2) e = F2R m1 e + F2R m2 e.
Proof. unfold F2R. rewrite plus_IZR. ring. Qed.

Lemma F2R_minus (m1 m2 e : Z) : F2R (m1 - m2) e = F2R m1 e - F2R m2 e.
Proof. unfold F2R. rewrite minus_IZR. ring. Qed.

(** Addition and subtraction of finite binary64 data round the exact result. *)
Lemma SFadd_R (f1 f2 : spec_float) :
  valid_binary f1 = true -> valid_binary f2 = true ->
  SF_finite f1 = true -> SF_finite f2 = true ->
  SF_nan (SF64add f1 f2) = false /\
  rounds_to (SF2R f1 + SF2R f2) (SF2R (SF64add f1 f2)).
Proof.
  intros V1 V2 F1 F2.
  destruct f1 as [s1|s1| |s1 m1 e1]; try discriminate;
  destruct f2 as [s2|s2| |s2 m2 e2]; try discriminate; unfold SF64add.
  - split; [destruct s1, s2; reflexivity|]. left. split; [cbn; lra|destruct s1, s2; reflexivity].
  - cbn [SFadd]. split; [reflexivity|]. replace (SF2R (S754_zero s1)) with 0 by reflexivity.
    rewrite Rplus_0_l. apply valid_rounds_to; auto.
  - cbn [SFadd]. split; [reflexivity|]. replace (SF2R (S754_zero s2)) with 0 by reflexivity.
    rewrite Rplus_0_r. apply valid_rounds_to; auto.
  - cbn [SFadd]. cbv zeta.
    set (ez := Z.min e1 e2).
    destruct (binary_normalize_R
                (cond_Zopp s1 (Zpos (fst (shl_align m1 e1 ez))) +
                 cond_Zopp s2 (Zpos (fst (shl_align m2 e2 ez)))) ez false) as [Hn Hr].
    split; [exact Hn|].
    rewrite F2R_plus, !F2R_cond_Zopp, !shl_align_F2R in Hr by (unfold ez; lia).
    rewrite !SF2R_finite. exact Hr.
Qed.

Lemma SFsub_R (f1 f2 : spec_float) :
  valid_binary f1 = true -> valid_binary f2 = true ->
  SF_finite f1 = true -> SF_finite f2 = true ->
  SF_nan (SF64sub f1 f2) = false /\
  rounds_to (SF2R f1 - SF2R f2) (SF2R (SF64sub f1 f2)).
Proof.
  intros V1 V2 F1 F2.
  destruct f1 as [s1|s1| |s1 m1 e1]; try discriminate;
  destruct f2 as [s2|s2| |s2 m2 e2]; try discriminate; unfold SF64sub.
  - split; [destruct s1, s2; reflexivity|]. left. split; [cbn; lra|destruct s1, s2; reflexivity].
  - cbn [SFsub]. split; [reflexivity|]. replace (SF2R (S754_zero s1)) with 0 by reflexivity.
    rewrite Rminus_0_l.
    replace (S754_finite (negb s2) m2 e2) with (SFopp (S754_finite s2 m2 e2)) by reflexivity.
    pose proof (valid_rounds_to _ V2 eq_refl) as H. apply rounds_to_opp in H.
    replace (SF2R (SFopp (S754_finite s2 m2 e2))) with (- SF2R (S754_finite s2 m2 e2)); [exact H|].
    cbn [SFopp]. rewrite !SF2R_finite. destruct s2; cbn [negb signed]; lra.
  - cbn [SFsub]. split; [reflexivity|]. replace (SF2R (S754_zero s2)) with 0 by reflexivity.
    rewrite Rminus_0_r. apply valid_rounds_to; auto.
  - cbn [SFsub]. cbv zeta.
    set (ez := Z.min e1 e2).
    destruct (binary_normalize_R
                (cond_Zopp s1 (Zpos (fst (shl_align m1 e1 ez))) -
                 cond_Zopp s2 (Zpos (fst (shl_align m2 e2 ez)))) ez false) as [Hn Hr].
    split; [exact Hn|].
    rewrite F2R_minus, !F2R_cond_Zopp, !shl_align_F2R in Hr by (unfold ez; lia).
    rewrite !SF2R_finite. exact Hr.
Qed.

Lemma digits2_mul_ge (m1 m2 : positive) :
  (Zpos (digits2_pos m1) + Zpos (digits2_pos m2) - 1 <= Zpos (digits2_pos (m1 * m2)))%Z.
Proof.
  pose proof (digits2_bounds m1) as [L1 _]. pose proof (digits2_bounds m2) as [L2 _].
  pose proof (digits2_bounds (m1 * m2)) as [_ U].
  set (d1 := Zpos (digits2_pos m1)) in *. set (d2 := Zpos (digits2_pos m2)) in *.
  set (dp := Zpos (digits2_pos (m1 * m2))) in *.
  assert (0 < d1)%Z by (unfold d1; lia). assert (0 < d2)%Z by (unfold d2; lia).
  assert (0 < dp)%Z by (unfold dp; lia).
  assert (2 ^ (d1 - 1 + (d2 - 1)) < 2 ^ dp)%Z as Hlt.
  { rewrite Z.pow_add_r by lia. rewrite Pos2Z.inj_mul in U.
    pose proof (pow2_pos (d1 - 1) ltac:(lia)). pose proof (pow2_pos (d2 - 1) ltac:(lia)). nia. }
  apply Z.pow_lt_mono_r_iff in Hlt; lia.
Qed.

Lemma F2R_mul (m1 m2 e1 e2 : Z) : F2R (m1 * m2) (e1 + e2) = F2R m1 e1 * F2R m2 e2.
Proof. unfold F2R. rewrite mult_IZR, bpow_add. ring. Qed.

Lemma rounds_to_signed (s : bool) (v rho : R) :
  0 < v -> round_pos v rho -> rounds_to (signed s v) (signed s rho).
Proof.
  intros Hv Hr. destruct s; cbn [signed].
  - right. right. split; [lra|]. exists rho. rewrite Ropp_involutive. auto.
  - right. left. auto.
Qed.

(** Multiplication of finite binary64 data rounds the exact product. *)
Lemma SFmul_R (f1 f2 : spec_float) :
  valid_binary f1 = true -> valid_binary f2 = true ->
  SF_finite f1 = true -> SF_finite f2 = true ->
  SF_nan (SF64mul f1 f2) = false /\
  rounds_to (SF2R f1 * SF2R f2) (SF2R (SF64mul f1 f2)).
Proof.
  intros V1 V2 F1 F2.
  destruct f1 as [s1|s1| |s1 m1 e1]; try discriminate;
  destruct f2 as [s2|s2| |s2 m2 e2]; try discriminate; unfold SF64mul; cbn [SFmul].
  - split; [reflexivity|]. left. cbn [SF2R]. split; lra.
  - split; [reflexivity|]. left. cbn [SF2R]. split; lra.
  - split; [reflexivity|]. left. cbn [SF2R]. split; lra.
  - apply valid_finite in V1, V2. destruct V1 as [C1 _], V2 as [C2 _].
    rewrite fexp64 in C1, C2. pose proof (digits2_mul_ge m1 m2) as Hd.
    destruct (round_aux_R (xorb s1 s2) (m1 * m2) (e1 + e2)) as (rho & Hr & Hn & Hv).
    { rewrite fexp64. lia. }
    change (Zpos m1 * Zpos m2)%Z with (Zpos (m1 * m2)).
    split; [exact Hn|]. rewrite Hv, !SF2R_finite.
    rewrite Pos2Z.inj_mul, F2R_mul in Hr.
    pose proof (F2R_pos m1 e1). pose proof (F2R_pos m2 e2).
    assert (0 < F2R (Zpos m1) e1 * F2R (Zpos m2) e2) as Hp by nra.
    pose proof (rounds_to_signed (xorb s1 s2) _ _ Hp Hr) as H'.
    replace (signed s1 (F2R (Zpos m1) e1) * signed s2 (F2R (Zpos m2) e2))
      with (signed (xorb s1 s2) (F2R (Zpos m1) e1 * F2R (Zpos m2) e2)); [exact H'|].
    destruct s1, s2; cbn [signed xorb]; lra.
Qed.


(** The sign of what [binary_round_aux] returns, and when it is a NaN. *)
Lemma shr_1_m_nonneg (mrs : shr_record) : (0 <= shr_m mrs)%Z -> (0 <= shr_m (shr_1 mrs))%Z.
Proof.
  destruct mrs as [m r s]. cbn [shr_m]. intros H.
  destruct m as [|[q|q|]|q]; cbn; lia.
Qed.

Lemma shr_m_nonneg (mrs : shr_record) (e n : Z) :
  (0 <= shr_m mrs)%Z -> (0 <= shr_m (fst (shr mrs e n)))%Z.
Proof.
  intros H. destruct n as [|p|p]; cbn [shr fst]; try exact H.
  rewrite iter_pos_nat. induction (Pos.to_nat p) as [|k IH]; [exact H|].
  cbn [Nat.iter nat_rect]. apply shr_1_m_nonneg. exact IH.
Qed.

Lemma shr_fexp_m_nonneg (m e : Z) (l : location) :
  (0 <= m)%Z -> (0 <= shr_m (fst (shr_fexp prec emax m e l)))%Z.
Proof.
  intros H. unfold shr_fexp. apply shr_m_nonneg.
  destruct l as [|[]]; exact H.
Qed.

Lemma round_nearest_even_nonneg (m : Z) (l : location) :
  (0 <= m)%Z -> (0 <= round_nearest_even m l)%Z.
Proof.
  intros H. destruct l as [|[]]; cbn [round_nearest_even]; try lia.
  destruct (Z.even m); lia.
Qed.

Lemma round_aux_sign (sx : bool) (mx ex : Z) (lx : location) :
  (0 <= mx)%Z ->
  match binary_round_aux prec emax sx mx ex lx with
  | S754_zero s | S754_infinity s | S754_finite s _ _ => s = sx
  | S754_nan => False
  end.
Proof.
  intros H. unfold binary_round_aux.
  pose proof (shr_fexp_m_nonneg mx ex lx H) as H1.
  destruct (shr_fexp prec emax mx ex lx) as [mrs' e']. cbn [fst] in H1.
  pose proof (shr_fexp_m_nonneg _ e' loc_Exact
                (round_nearest_even_nonneg _ (loc_of_shr_record mrs') H1)) as H2.
  destruct (shr_fexp prec emax _ e' loc_Exact) as [mrs'' e'']. cbn [fst] in H2.
  destruct (shr_m mrs'') as [|q|q]; [reflexivity| |lia].
  destruct (e'' <=? emax - prec)%Z; reflexivity.
Qed.

(** A square root that is not a NaN is non-negative, and the square root of
    a non-negative datum is not a NaN. *)
Lemma SFsqrt_finite_case (m : positive) (e : Z) :
  SF_nan (SF64sqrt (S754_finite false m e)) = false /\
  0 <= SF2R (SF64sqrt (S754_finite false m e)).
Proof.
  pose proof OMEGA_pos. unfold SF64sqrt. cbn [SFsqrt].
  destruct (SFsqrt_core_binary prec emax (Zpos m) e) as [[mz ez] lz] eqn:E.
  assert (Hmz : (0 <= mz)%Z).
  { unfold SFsqrt_core_binary in E.
    set (m' := match (e - 2 * Z.min (fexp prec emax (Z.div2 (Zdigits2 (Zpos m) + e + 1))) (Z.div2 e))%Z with
               | Z0 => Zpos m | Zpos _ => Z.shiftl (Zpos m) _ | Zneg _ => Z0 end) in E.
    assert (Hm' : (0 <= m')%Z).
    { unfold m'. destruct (e - 2 * _)%Z; try lia. apply Z.shiftl_nonneg. lia. }
    pose proof (Z.sqrtrem_spec m' Hm') as Hs.
    destruct (Z.sqrtrem m') as [q r]. injection E as <- _ _. lia. }
  pose proof (round_aux_sign false mz ez lz Hmz) as Hs.
  destruct (binary_round_aux prec emax false mz ez lz) as [s|s| |s m1 e1];
    try contradiction; subst; cbn [SF_nan SF2R cond_Zopp].
  - split; [reflexivity|lra].
  - split; [reflexivity|lra].
  - split; [reflexivity|]. pose proof (F2R_pos m1 e1). lra.
Qed.

Lemma SFsqrt_nonneg (f : spec_float) :
  SFleb (S754_zero false) f = true ->
  SF_nan (SF64sqrt f) = false /\ 0 <= SF2R (SF64sqrt f).
Proof.
  intros H. pose proof OMEGA_pos.
  destruct f as [s|s| |s m e]; try discriminate.
  - unfold SF64sqrt. cbn [SFsqrt SF_nan SF2R]. split; [reflexivity|lra].
  - destruct s; [discriminate|]. unfold SF64sqrt. cbn [SFsqrt SF_nan SF2R]. split; [reflexivity|lra].
  - destruct s; [discriminate|]. apply SFsqrt_finite_case.
Qed.

Lemma SFsqrt_not_nan_nonneg (f : spec_float) :
  SF_nan (SF64sqrt f) = false -> 0 <= SF2R (SF64sqrt f).
Proof.
  intros H. pose proof OMEGA_pos.
  destruct f as [s|s| |s m e].
  - unfold SF64sqrt. cbn [SFsqrt SF2R]. lra.
  - destruct s; [discriminate|]. unfold SF64sqrt. cbn [SFsqrt SF2R]. lra.
  - discriminate.
  - destruct s; [discriminate|]. apply SFsqrt_finite_case.
Qed.

(** Two finite binary64 data of one value and sign are the same datum. *)
Lemma SF_eq_of_compare (f1 f2 : spec_float) :
  SFcompare f1 f2 = Some Eq ->
  match f1, f2 with
  | S754_finite s1 m1 e1, S754_finite s2 m2 e2 => f1 = f2
  | _, _ => True
  end.
Proof.
  destruct f1 as [s1|s1| |s1 m1 e1], f2 as [s2|s2| |s2 m2 e2]; auto.
  cbn [SFcompare]. intros H. injection H as H.
  destruct s1, s2; try discriminate;
    destruct (Z.compare_spec e1 e2) as [E|L|G]; try discriminate; subst e2.
  - destruct (Pos.compare_cont Eq m1 m2) eqn:C; try discriminate.
    apply Pos.compare_eq in C. subst. reflexivity.
  - apply Pos.compare_eq in H. subst. reflexivity.
Qed.

(** ** Primitive floats *)

Local Open Scope float_scope.

Lemma F_class (u : float) :
  Fnan u = true \/ Ffinite u = true \/
  Prim2SF u = S754_infinity false \/ Prim2SF u = S754_infinity true.
Proof.
  unfold Fnan, Ffinite. destruct (Prim2SF u) as [s|[]| |s m e]; cbn; auto.
Qed.

Lemma FR_bounds (u : float) : (- OMEGA <= FR u <= OMEGA)%R.
Proof.
  pose proof OMEGA_pos. unfold FR. pose proof (Prim2SF_valid u) as V.
  destruct (Prim2SF u) as [s|[]| |s m e] eqn:E; cbn [SF2R]; try lra.
  pose proof (valid_abs_lt_OMEGA _ V eq_refl) as B. cbn [SF2R] in B. lra.
Qed.

Lemma Ffinite_of_bounds (u : float) :
  Fnan u = false -> (- OMEGA < FR u < OMEGA)%R -> Ffinite u = true.
Proof.
  unfold Fnan, Ffinite, FR. destruct (Prim2SF u) as [s|[]| |s m e]; cbn [SF_nan SF_finite SF2R];
    intros; try reflexivity; try discriminate; lra.
Qed.

Lemma F_rounds_to_self (u : float) : Ffinite u = true -> rounds_to (FR u) (FR u).
Proof. intros H. apply valid_rounds_to; [apply Prim2SF_valid|exact H]. Qed.

(** Comparisons: what one test says about the mirrored one *)
Lemma SFcompare_swap (f1 f2 : spec_float) :
  SFcompare f2 f1 = option_map CompOpp (SFcompare f1 f2).
Proof.
  destruct f1 as [s1|s1| |s1 m1 e1], f2 as [s2|s2| |s2 m2 e2];
    try reflexivity;
    try (destruct s1; reflexivity);
    try (destruct s2; reflexivity);
    try (destruct s1, s2; reflexivity).
  pose proof (Pos.compare_cont_antisym m1 m2 Eq) as Hm. simpl in Hm.
  simpl. rewrite <- Hm, (Z.compare_antisym e1 e2).
  destruct s1, s2; simpl; try reflexivity;
    destruct (e1 ?= e2)%Z; simpl; try reflexivity;
    destruct (Pos.compare_cont Eq m1 m2); reflexivity.
Qed.


Lemma eqb_not_gtb (u w : float) : (u =? w) = true -> (w <? u) = false.
Proof.
  rewrite eqb_spec, ltb_spec. unfold SFeqb, SFltb.
  rewrite (SFcompare_swap (Prim2SF u) (Prim2SF w)).
  destruct (SFcompare (Prim2SF u) (Prim2SF w)) as [[]|]; simpl; congruence.
Qed.


(** Comparisons and the order of the reals *)
Lemma ltb_nonnan (u w : float) : (u <? w) = true -> Fnan u = false /\ Fnan w = false.
Proof.
  rewrite ltb_spec. unfold SFltb. intros H. apply SFcompare_nan.
  destruct (SFcompare (Prim2SF u) (Prim2SF w)); congruence.
Qed.

Lemma leb_nonnan (u w : float) : (u <=? w) = true -> Fnan u = false /\ Fnan w = false.
Proof.
  rewrite leb_spec. unfold SFleb. intros H. apply SFcompare_nan.
  destruct (SFcompare (Prim2SF u) (Prim2SF w)); congruence.
Qed.

Lemma eqb_nonnan (u w : float) : (u =? w) = true -> Fnan u = false /\ Fnan w = false.
Proof.
  rewrite eqb_spec. unfold SFeqb. intros H. apply SFcompare_nan.
  destruct (SFcompare (Prim2SF u) (Prim2SF w)); congruence.
Qed.

Lemma ltb_R (u w : float) :
  Fnan u = false -> Fnan w = false -> ((u <? w) = true <-> (FR u < FR w)%R).
Proof.
  intros. rewrite ltb_spec. apply SFltb_R; auto using Prim2SF_valid.
Qed.

Lemma leb_R (u w : float) :
  Fnan u = false -> Fnan w = false -> ((u <=? w) = true <-> (FR u <= FR w)%R).
Proof.
  intros. rewrite leb_spec. apply SFleb_R; auto using Prim2SF_valid.
Qed.

Lemma ltb_true_R (u w : float) : (u <? w) = true -> (FR u < FR w)%R.
Proof. intros H. destruct (ltb_nonnan _ _ H). apply ltb_R; auto. Qed.

Lemma leb_true_R (u w : float) : (u <=? w) = true -> (FR u <= FR w)%R.
Proof. intros H. destruct (leb_nonnan _ _ H). apply leb_R; auto. Qed.

Lemma eqb_true_R (u w : float) : (u =? w) = true -> FR u = FR w.
Proof.
  intros H. destruct (eqb_nonnan _ _ H) as [N1 N2]. rewrite eqb_spec in H.
  pose proof (SFcompare_R _ _ (Prim2SF_valid u) (Prim2SF_valid w) N1 N2) as C.
  unfold SFeqb in H. destruct (SFcompare (Prim2SF u) (Prim2SF w)) as [[]|]; try discriminate.
  exact C.
Qed.

Lemma ltb_false_R (u w : float) :
  Fnan u = false -> Fnan w = false -> (u <? w) = false -> (FR w <= FR u)%R.
Proof.
  intros N1 N2 H. destruct (Rle_or_lt (FR w) (FR u)) as [L|L]; [exact L|].
  apply (ltb_R u w N1 N2) in L. congruence.
Qed.

(** Arithmetic on finite operands *)
Lemma add_R (u w : float) :
  Ffinite u = true -> Ffinite w = true ->
  Fnan (u + w) = false /\ rounds_to (FR u + FR w) (FR (u + w)).
Proof.
  intros. unfold Fnan, FR. rewrite add_spec. apply SFadd_R; auto using Prim2SF_valid.
Qed.

Lemma sub_R (u w : float) :
  Ffinite u = true -> Ffinite w = true ->
  Fnan (u - w) = false /\ rounds_to (FR u - FR w) (FR (u - w)).
Proof.
  intros. unfold Fnan, FR. rewrite sub_spec. apply SFsub_R; auto using Prim2SF_valid.
Qed.

Lemma mul_R (u w : float) :
  Ffinite u = true -> Ffinite w = true ->
  Fnan (u * w) = false /\ rounds_to (FR u * FR w) (FR (u * w)).
Proof.
  intros. unfold Fnan, FR. rewrite mul_spec. apply SFmul_R; auto using Prim2SF_valid.
Qed.

(** A finite value below the exact result stays below the rounded one, and
    symmetrically. *)
Lemma rounds_to_ge (t : float) (v r : R) :
  Ffinite t = true -> rounds_to v r -> (FR t <= v)%R -> (FR t <= r)%R.
Proof. intros Ft Hr Hv. exact (rounds_to_mono _ _ _ _ Hv (F_rounds_to_self t Ft) Hr). Qed.

Lemma rounds_to_le (t : float) (v r : R) :
  Ffinite t = true -> rounds_to v r -> (v <= FR t)%R -> (r <= FR t)%R.
Proof. intros Ft Hr Hv. exact (rounds_to_mono _ _ _ _ Hv Hr (F_rounds_to_self t Ft)). Qed.

Lemma opp_R (u : float) : FR (- u) = (- FR u)%R /\ Fnan (- u) = Fnan u /\ Ffinite (- u) = Ffinite u.
Proof.
  unfold FR, Fnan, Ffinite. rewrite opp_spec.
  destruct (Prim2SF u) as [s|[]| |s m e]; cbn [SFopp SF2R SF_nan SF_finite negb];
    repeat split; try lra.
  rewrite !F2R_cond_Zopp. destruct s; cbn [negb signed]; lra.
Qed.

Lemma sqrt_nonneg (t : float) :
  (0 <=? t) = true -> Fnan (PrimFloat.sqrt t) = false /\ (0 <= FR (PrimFloat.sqrt t))%R.
Proof.
  intros H. rewrite leb_spec in H. unfold Fnan, FR. rewrite sqrt_spec.
  apply SFsqrt_nonneg. exact H.
Qed.

Lemma sqrt_not_nan_nonneg (t : float) :
  Fnan (PrimFloat.sqrt t) = false -> (0 <= FR (PrimFloat.sqrt t))%R.
Proof. unfold Fnan, FR. rewrite sqrt_spec. apply SFsqrt_not_nan_nonneg. Qed.

Lemma eqb_R (u w : float) :
  Fnan u = false -> Fnan w = false -> ((u =? w) = true <-> FR u = FR w).
Proof.
  intros N1 N2. rewrite eqb_spec.
  pose proof (SFcompare_R _ _ (Prim2SF_valid u) (Prim2SF_valid w) N1 N2) as C.
  unfold SFeqb, FR. destruct (SFcompare (Prim2SF u) (Prim2SF w)) as [[]|]; cbn [cmp_R] in C;
    split; intros; try discriminate; try reflexivity; try lra; contradiction.
Qed.

Lemma F_zero : Ffinite 0 = true /\ FR 0 = 0%R.
Proof. split; [reflexivity|]. unfold FR. cbn. reflexivity. Qed.

Lemma F_one : Ffinite 1 = true /\ FR 1 = 1%R.
Proof.
  split; [reflexivity|]. unfold FR.
  replace (Prim2SF 1) with (S754_finite false 4503599627370496 (-52)) by reflexivity.
  cbn [SF2R cond_Zopp]. change 4503599627370496%Z with (1 * 2 ^ 52)%Z.
  rewrite F2R_shift by lia. unfold F2R. cbn. lra.
Qed.

(** Operands that are infinite *)
Lemma add_pinf_r (u w : float) :
  Fnan u = false -> Prim2SF u <> S754_infinity true ->
  Prim2SF w = S754_infinity false ->
  Prim2SF (u + w) = S754_infinity false.
Proof.
  unfold Fnan. intros N M W. rewrite add_spec, W. unfold SF64add.
  destruct (Prim2SF u) as [s|[]| |s m e]; try discriminate; try reflexivity.
  congruence.
Qed.

Lemma add_pinf_l (u w : float) :
  Prim2SF u = S754_infinity false -> Ffinite w = true ->
  Prim2SF (u + w) = S754_infinity false.
Proof.
  unfold Ffinite. intros U W. rewrite add_spec, U. unfold SF64add.
  destruct (Prim2SF w) as [s|[]| |s m e]; try discriminate; reflexivity.
Qed.

Lemma add_ninf_l (u w : float) :
  Prim2SF u = S754_infinity true -> Ffinite w = true ->
  Prim2SF (u + w) = S754_infinity true.
Proof.
  unfold Ffinite. intros U W. rewrite add_spec, U. unfold SF64add.
  destruct (Prim2SF w) as [s|[]| |s m e]; try discriminate; reflexivity.
Qed.

Lemma sub_pinf_r (u w : float) :
  Ffinite u = true -> Prim2SF w = S754_infinity false ->
  Prim2SF (u - w) = S754_infinity true.
Proof.
  unfold Ffinite. intros U W. rewrite sub_spec, W. unfold SF64sub.
  destruct (Prim2SF u) as [s|[]| |s m e]; try discriminate; reflexivity.
Qed.

Lemma sub_inf_l (u w : float) (s : bool) :
  Prim2SF u = S754_infinity s -> Ffinite w = true ->
  Prim2SF (u - w) = S754_infinity s.
Proof.
  unfold Ffinite. intros U W. rewrite sub_spec, U. unfold SF64sub.
  destruct (Prim2SF w) as [s'|[]| |s' m e]; try discriminate; reflexivity.
Qed.

Lemma add_nan_inv (u w : float) :
  Fnan (u + w) = false -> Fnan u = false /\ Fnan w = false.
Proof.
  unfold Fnan. rewrite add_spec. unfold SF64add.
  destruct (Prim2SF u) as [s|s| |s m e], (Prim2SF w) as [s'|s'| |s' m' e'];
    cbn [SFadd SF_nan]; auto; try discriminate.
Qed.

Lemma FR_pinf (u : float) : Prim2SF u = S754_infinity false -> FR u = OMEGA /\ Fnan u = false.
Proof. unfold FR, Fnan. intros ->. split; reflexivity. Qed.

Lemma FR_ninf (u : float) : Prim2SF u = S754_infinity true -> FR u = (- OMEGA)%R /\ Fnan u = false.
Proof. unfold FR, Fnan. intros ->. split; reflexivity. Qed.

(** Non-NaN data of one sign class: finite, or an infinity. *)
Lemma F_class_nonneg (u : float) :
  Fnan u = false -> (0 <= FR u)%R ->
  Ffinite u = true \/ Prim2SF u = S754_infinity false.
Proof.
  intros N P. pose proof OMEGA_pos.
  destruct (F_class u) as [C|[C|[C|C]]]; auto; [congruence|].
  destruct (FR_ninf u C). lra.
Qed.



(** [1 * t] is [t], bit for bit. *)
Lemma mul_1_l (t : float) : 1 * t = t.
Proof.
  apply Prim2SF_inj.
  pose proof (Prim2SF_valid (1 * t)) as V. pose proof (Prim2SF_valid t) as Vt.
  destruct (Prim2SF t) as [s|s| |s m e] eqn:E.
  - rewrite mul_spec, E. reflexivity.
  - rewrite mul_spec, E. reflexivity.
  - rewrite mul_spec, E. reflexivity.
  - assert (Ft : Ffinite t = true) by (unfold Ffinite; rewrite E; reflexivity).
    destruct (mul_R 1 t (proj1 F_one) Ft) as [N Rm].
    rewrite (proj2 F_one), Rmult_1_l in Rm.
    pose proof (rounds_to_unique _ _ _ Rm (F_rounds_to_self t Ft)) as Ev.
    unfold FR, Fnan in *. rewrite E in Ev.
    pose proof (SFcompare_R _ _ V Vt N eq_refl) as C. rewrite Ev in C.
    destruct (SFcompare (Prim2SF (1 * t)) (S754_finite s m e)) as [[]|] eqn:Cmp;
      cbn [cmp_R] in C; try lra; try contradiction.
    pose proof (SF_eq_of_compare _ _ Cmp) as Q.
    destruct (Prim2SF (1 * t)) as [s'|s'| |s' m' e']; try discriminate.
    + cbn [SFcompare] in Cmp. destruct s; discriminate.
    + cbn [SFcompare] in Cmp. destruct s'; discriminate.
    + exact Q.
Qed.

(** ** Facts about one step of the walk *)

Lemma F_zero_nan : Fnan 0 = false.
Proof. reflexivity. Qed.

Lemma ltb_0_R (u : float) : Fnan u = false -> ((0 <? u) = true <-> (0 < FR u)%R).
Proof. intros N. rewrite (ltb_R 0 u F_zero_nan N), (proj2 F_zero). reflexivity. Qed.


(** An upward step from strictly inside [(0, a)] that leaves the interval
    lands in [[a, a + delta]], the sum being the rounded one. *)
Lemma step_up_overshoot (xp a d : float) :
  (0 <? xp) = true -> (xp <? a) = true ->
  Fnan d = false -> (0 <= FR d)%R ->
  ((xp + d <? a) && (0 <? xp + d))%bool = false ->
  (a <=? xp + d) = true /\ (xp + d <=? a + d) = true.
Proof.
  intros H0 Ha Nd Pd Hstop. pose proof OMEGA_pos as HO.
  destruct (ltb_nonnan _ _ Ha) as [Nx Na].
  apply ltb_true_R in H0, Ha. rewrite (proj2 F_zero) in H0.
  pose proof (FR_bounds a) as Ba.
  assert (Fx : Ffinite xp = true) by (apply Ffinite_of_bounds; [exact Nx|lra]).
  destruct (F_class_nonneg d Nd Pd) as [Fd|Id].
  - destruct (add_R _ _ Fx Fd) as [N Rx].
    assert (Hge : (FR xp <= FR (xp + d))%R) by (apply (rounds_to_ge xp _ _ Fx Rx); lra).
    assert (H0' : (0 <? xp + d) = true) by (apply ltb_0_R; [exact N|lra]).
    rewrite H0', andb_true_r in Hstop.
    pose proof (ltb_false_R _ _ N Na Hstop) as Hax.
    split; [apply leb_R; assumption|].
    destruct (F_class a) as [C|[Fa|[Ia|Ia]]]; [congruence| | |].
    + destruct (add_R _ _ Fa Fd) as [N' Ra]. apply leb_R; [exact N|exact N'|].
      apply (rounds_to_mono (FR xp + FR d) (FR a + FR d)); [lra|exact Rx|exact Ra].
    + pose proof (add_pinf_l a d Ia Fd) as E. destruct (FR_pinf _ E) as [V N'].
      apply leb_R; [exact N|exact N'|]. rewrite V. apply FR_bounds.
    + destruct (FR_ninf a Ia). lra.
  - assert (Ex : Prim2SF (xp + d) = S754_infinity false).
    { apply add_pinf_r; [exact Nx| |exact Id]. intros C. destruct (FR_ninf xp C). lra. }
    assert (Ea : Prim2SF (a + d) = S754_infinity false).
    { apply add_pinf_r; [exact Na| |exact Id]. intros C. destruct (FR_ninf a C). lra. }
    destruct (FR_pinf _ Ex) as [Vx N]. destruct (FR_pinf _ Ea) as [Va N'].
    split; apply leb_R; auto; lra.
Qed.

(** A downward step from strictly inside [(0, a)] that leaves the interval
    lands in [[- delta, 0]]. *)
Lemma step_down_overshoot (xp a d : float) :
  (0 <? xp) = true -> (xp <? a) = true ->
  Fnan d = false -> (0 <= FR d)%R ->
  ((xp - d <? a) && (0 <? xp - d))%bool = false ->
  (xp - d <=? 0) = true /\ (- d <=? xp - d) = true.
Proof.
  intros H0 Ha Nd Pd Hstop. pose proof OMEGA_pos as HO.
  destruct (ltb_nonnan _ _ Ha) as [Nx Na].
  apply ltb_true_R in H0, Ha. rewrite (proj2 F_zero) in H0.
  pose proof (FR_bounds a) as Ba.
  assert (Fx : Ffinite xp = true) by (apply Ffinite_of_bounds; [exact Nx|lra]).
  destruct (opp_R d) as (Vo & No & Fo). rewrite Nd in No.
  destruct (F_class_nonneg d Nd Pd) as [Fd|Id].
  - destruct (sub_R _ _ Fx Fd) as [N Rx].
    assert (Hle : (FR (xp - d) <= FR xp)%R) by (apply (rounds_to_le xp _ _ Fx Rx); lra).
    assert (Ha' : (xp - d <? a) = true) by (apply ltb_R; [exact N|exact Na|lra]).
    rewrite Ha', andb_true_l in Hstop.
    pose proof (ltb_false_R _ _ F_zero_nan N Hstop) as Hx0. rewrite (proj2 F_zero) in Hx0.
    split; [apply leb_R; [exact N|exact F_zero_nan|rewrite (proj2 F_zero); exact Hx0]|].
    apply leb_R; [exact No|exact N|].
    rewrite Fd in Fo. apply (rounds_to_ge (- d) _ _ Fo Rx). rewrite Vo. lra.
  - pose proof (sub_pinf_r xp d Fx Id) as Ex. destruct (FR_ninf _ Ex) as [Vx N].
    destruct (FR_pinf _ Id) as [Vd _].
    split; apply leb_R; auto using F_zero_nan; rewrite ?(proj2 F_zero), ?Vo; lra.
Qed.

(** A start above [a + delta]: whatever the step, the position stays at or
    above [a]; after an upward step it is strictly above. *)
Lemma far_above (x0 a d : float) :
  (a + d <? x0) = true -> (0 <= FR d)%R ->
  Fnan a = false /\
  Fnan (x0 + d) = false /\ (FR a < FR (x0 + d))%R /\
  Fnan (x0 - d) = false /\ (FR a <= FR (x0 - d))%R.
Proof.
  intros H Pd. pose proof OMEGA_pos as HO.
  destruct (ltb_nonnan _ _ H) as [Ns N0]. destruct (add_nan_inv _ _ Ns) as [Na Nd].
  apply ltb_true_R in H.
  pose proof (FR_bounds x0) as B0. pose proof (FR_bounds (a + d)) as Bs.
  (* delta is finite: otherwise a + delta is +infinity *)
  destruct (F_class_nonneg d Nd Pd) as [Fd|Id].
  2:{ destruct (F_class a) as [C|[Fa|[Ia|Ia]]]; [congruence| | |].
      - assert (E : Prim2SF (a + d) = S754_infinity false).
        { apply add_pinf_r; [exact Na| |exact Id]. intros C.
          unfold Ffinite in Fa. rewrite C in Fa. discriminate. }
        destruct (FR_pinf _ E). lra.
      - assert (E : Prim2SF (a + d) = S754_infinity false).
        { apply add_pinf_r; [exact Na| |exact Id]. congruence. }
        destruct (FR_pinf _ E). lra.
      - exfalso. unfold Fnan in Ns. rewrite add_spec, Ia, Id in Ns. discriminate. }
  (* a is finite or -infinity, and FR a <= FR (a + delta) *)
  assert (Hlo : (FR a <= FR (a + d))%R /\ (Ffinite a = true \/ FR a = - OMEGA)%R).
  { destruct (F_class a) as [C|[Fa|[Ia|Ia]]]; [congruence| | |].
    - destruct (add_R _ _ Fa Fd) as [_ Ra]. split; [|auto].
      apply (rounds_to_ge a _ _ Fa Ra). lra.
    - pose proof (add_pinf_l a d Ia Fd) as E. destruct (FR_pinf _ E). lra.
    - destruct (FR_ninf a Ia) as [V _]. split; [lra|auto]. }
  destruct Hlo as [Hlo Ca]. split; [exact Na|].
  destruct (F_class x0) as [C|[F0|[I0|I0]]]; [congruence| | |].
  - destruct (add_R _ _ F0 Fd) as [Nu Ru]. destruct (sub_R _ _ F0 Fd) as [Nl Rl].
    assert (Hu : (FR x0 <= FR (x0 + d))%R) by (apply (rounds_to_ge x0 _ _ F0 Ru); lra).
    assert (Hl : (FR a <= FR (x0 - d))%R).
    { destruct Ca as [Fa|Va].
      - apply (rounds_to_ge a _ _ Fa Rl).
        destruct (Rle_or_lt (FR a) (FR x0 - FR d)) as [L|L]; [exact L|exfalso].
        destruct (add_R _ _ Fa Fd) as [_ Ra].
        assert (FR x0 <= FR (a + d))%R by (apply (rounds_to_ge x0 _ _ F0 Ra); lra). lra.
      - rewrite Va. apply FR_bounds. }
    repeat split; auto; lra.
  - pose proof (add_pinf_l x0 d I0 Fd) as Eu. pose proof (sub_inf_l x0 d false I0 Fd) as El.
    destruct (FR_pinf _ Eu) as [Vu Nu]. destruct (FR_pinf _ El) as [Vl Nl].
    destruct (FR_pinf _ I0) as [V0 _].
    repeat split; auto; lra.
  - destruct (FR_ninf x0 I0). lra.
Qed.

(** A start below [- delta]: whatever the step, the position stays at or
    below zero. *)
Lemma far_below (x0 d : float) :
  (x0 <? - d) = true -> (0 <= FR d)%R ->
  Fnan (x0 + d) = false /\ (FR (x0 + d) <= 0)%R /\
  Fnan (x0 - d) = false /\ (FR (x0 - d) <= 0)%R.
Proof.
  intros H Pd. pose proof OMEGA_pos as HO.
  destruct (ltb_nonnan _ _ H) as [N0 No]. destruct (opp_R d) as (Vo & Nd & Fo).
  rewrite No in Nd. symmetry in Nd.
  apply ltb_true_R in H. rewrite Vo in H.
  pose proof (FR_bounds x0) as B0.
  destruct (F_class_nonneg d Nd Pd) as [Fd|Id].
  2:{ destruct (FR_pinf _ Id). lra. }
  destruct (F_class x0) as [C|[F0|[I0|I0]]]; [congruence| | |].
  - destruct (add_R _ _ F0 Fd) as [Nu Ru]. destruct (sub_R _ _ F0 Fd) as [Nl Rl].
    split; [exact Nu|]. split; [|split; [exact Nl|]].
    + rewrite <- (proj2 F_zero). apply (rounds_to_le 0 _ _ (proj1 F_zero) Ru).
      rewrite (proj2 F_zero). lra.
    + rewrite <- (proj2 F_zero). apply (rounds_to_le 0 _ _ (proj1 F_zero) Rl).
      rewrite (proj2 F_zero). lra.
  - destruct (FR_pinf _ I0). lra.
  - pose proof (add_ninf_l x0 d I0 Fd) as Eu. pose proof (sub_inf_l x0 d true I0 Fd) as El.
    destruct (FR_ninf _ Eu) as [Vu Nu]. destruct (FR_ninf _ El) as [Vl Nl].
    repeat split; auto; lra.
Qed.

(** With [p] equal to one every draw below one is below [p]; with [p] equal
    to zero no non-negative draw is. *)
Lemma draw_below_one (p r : float) :
  (p =? 1) = true -> (r <? 1) = true -> (r <? p) = true.
Proof.
  intros Hp Hr. destruct (eqb_nonnan _ _ Hp) as [Np _].
  destruct (ltb_nonnan _ _ Hr) as [Nr _].
  apply eqb_true_R in Hp. apply ltb_true_R in Hr.
  apply ltb_R; [exact Nr|exact Np|]. lra.
Qed.

Lemma draw_not_below_zero (p r : float) :
  (p =? 0) = true -> (0 <=? r) = true -> (r <? p) = false.
Proof.
  intros Hp Hr. apply eqb_true_R in Hp. apply leb_true_R in Hr.
  destruct (r <? p) eqn:E; [|reflexivity]. apply ltb_true_R in E. lra.
Qed.

End B64.

Import B64.
Local Open Scope float_scope.

(** * Part III: the loop and its trace *)

Section Loop.
Variables a delta p : float.

Lemma trace_unfold (r : float) (rest : list float) (s : state) :
  tic s <> INT_MAX ->
  trace a delta p (r :: rest) s =
  body delta p r s ::
    (if continue a (body delta p r s) then trace a delta p rest (body delta p r s) else []).
Proof.
  intros H. simpl. destruct (Z.eqb_spec (tic s) INT_MAX); [contradiction | reflexivity].
Qed.

(** Each recorded state is the loop body applied, with the draw of the same
    index, to the state recorded just before it (or to the entry state). *)
Lemma trace_step (draws : list float) (s : state) (k : nat) (t : state) :
  nth_error (trace a delta p draws s) k = Some t ->
  exists r s0,
    nth_error draws k = Some r /\
    nth_error (s :: trace a delta p draws s) k = Some s0 /\
    t = body delta p r s0.
Proof.
  revert s k. induction draws as [|r rest IH]; intros s k H.
  - destruct k; discriminate.
  - simpl in H. destruct (Z.eqb_spec (tic s) INT_MAX) as [E|E].
    + destruct k; discriminate.
    + destruct k as [|k].
      * exists r, s. simpl in *. injection H as <-. auto.
      * simpl in H.
        destruct (continue a (body delta p r s)) eqn:C.
        -- destruct (IH _ _ H) as (r' & s0 & H1 & H2 & H3).
           exists r', s0. split; [exact H1|]. split; [|exact H3].
           rewrite trace_unfold by exact E. rewrite C. exact H2.
        -- destruct k; discriminate.
Qed.

(** Every recorded state but the last passed the loop test. *)
Lemma trace_continue (draws : list float) (s : state) (k : nat) (t : state) :
  nth_error (trace a delta p draws s) k = Some t ->
  S k < length (trace a delta p draws s) ->
  continue a t = true.
Proof.
  revert s k. induction draws as [|r rest IH]; intros s k H L.
  - destruct k; discriminate.
  - simpl in H, L. destruct (Z.eqb_spec (tic s) INT_MAX) as [E|E].
    + destruct k; discriminate.
    + destruct (continue a (body delta p r s)) eqn:C.
      * destruct k as [|k]; simpl in H, L.
        -- injection H as <-. exact C.
        -- apply (IH _ _ H). lia.
      * simpl in L. lia.
Qed.

(** The counter counts the recorded states. *)
Lemma trace_tic (draws : list float) (s : state) (k : nat) (t : state) :
  nth_error (trace a delta p draws s) k = Some t ->
  tic t = (tic s + Z.of_nat (S k))%Z /\ (tic s + Z.of_nat (S k) <= INT_MAX \/ INT_MAX < tic s)%Z.
Proof.
  revert s k. induction draws as [|r rest IH]; intros s k H.
  - destruct k; discriminate.
  - simpl in H. destruct (Z.eqb_spec (tic s) INT_MAX) as [E|E].
    + destruct k; discriminate.
    + destruct k as [|k]; simpl in H.
      * injection H as <-. simpl. lia.
      * destruct (continue a (body delta p r s)).
        -- destruct (IH _ _ H) as [H1 H2]. simpl in H1, H2. lia.
        -- destruct k; discriminate.
Qed.

(** A returning loop: its final state is the last recorded one, it fails
    the loop test, and the unused draws are those past the recorded ones. *)
Lemma do_while_Done (draws : list float) (s s' : state) (rest : list float) :
  do_while a delta p draws s = Done (s', rest) ->
  exists n,
    length (trace a delta p draws s) = S n /\
    nth_error (trace a delta p draws s) n = Some s' /\
    continue a s' = false /\
    rest = skipn (S n) draws /\
    S n <= length draws.
Proof.
  revert s. induction draws as [|r rs IH]; intros s H; simpl in H; [discriminate|].
  simpl. destruct (tic s =? INT_MAX)%Z; [discriminate|].
  destruct (continue a (body delta p r s)) eqn:C.
  - destruct (IH _ H) as (n & L & N & F & R & B).
    exists (S n). simpl. repeat split; auto; lia.
  - injection H as <- <-. exists 0%nat. simpl. repeat split; auto; lia.
Qed.

(** Conversely a trace whose last state fails the test is a returning loop. *)
Lemma trace_Done (draws : list float) (s s' : state) (n : nat) :
  length (trace a delta p draws s) = S n ->
  nth_error (trace a delta p draws s) n = Some s' ->
  continue a s' = false ->
  do_while a delta p draws s = Done (s', skipn (S n) draws).
Proof.
  revert s n. induction draws as [|r rs IH]; intros s n L N F; simpl in *; [discriminate|].
  destruct (tic s =? INT_MAX)%Z; [discriminate|].
  destruct (continue a (body delta p r s)) eqn:C; simpl in L.
  - destruct n as [|n]; simpl in N.
    + injection N as <-. congruence.
    + apply IH; auto.
  - destruct n as [|n]; simpl in N; [|discriminate].
    injection N as <-. reflexivity.
Qed.

(** The loop depends on the draws only through those it consumes. *)
Lemma do_while_agree (draws draws' : list float) (s s' : state) (rest : list float) :
  do_while a delta p draws s = Done (s', rest) ->
  firstn (length (trace a delta p draws s)) draws' =
  firstn (length (trace a delta p draws s)) draws ->
  do_while a delta p draws' s =
    Done (s', skipn (length (trace a delta p draws s)) draws') /\
  trace a delta p draws' s = trace a delta p draws s.
Proof.
  revert draws' s. induction draws as [|r rs IH]; intros draws' s H A; simpl in H; [discriminate|].
  simpl in A |- *. destruct (tic s =? INT_MAX)%Z eqn:E; [discriminate|].
  destruct draws' as [|r' rs']; [discriminate|].
  simpl in A. injection A as -> A. simpl. rewrite E.
  destruct (continue a (body delta p r s)) eqn:C.
  - destruct (IH rs' _ H A) as [H1 H2]. rewrite H1, H2. auto.
  - injection H as <- <-. auto.
Qed.
End Loop.

(** ** Returned calls *)

Lemma random_walk_Done (b a v t_eps : float) (draws : list float) (r : result) :
  random_walk b a v t_eps draws = Done r ->
  exists s rest, walk b a v t_eps draws = Done (s, rest) /\ r = report a t_eps s.
Proof.
  unfold random_walk. destruct (walk b a v t_eps draws) as [[s rest]| |]; try discriminate.
  intros H. injection H as <-. exists s, rest. auto.
Qed.

Lemma walk_Done (b a v t_eps : float) (draws : list float) (s : state) (rest : list float) :
  walk b a v t_eps draws = Done (s, rest) ->
  exists n,
    length (walk_trace b a v t_eps draws) = S n /\
    nth_error (walk_trace b a v t_eps draws) n = Some s /\
    continue a s = false /\
    rest = skipn (S n) draws /\
    tic s = Z.of_nat (S n) /\ (tic s <= INT_MAX)%Z.
Proof.
  unfold walk, walk_trace. intros H.
  destruct (do_while_Done _ _ _ _ _ _ _ H) as (n & L & N & C & R & _).
  exists n. repeat split; auto.
  - destruct (trace_tic _ _ _ _ _ _ _ N) as [T _]. exact T.
  - destruct (trace_tic _ _ _ _ _ _ _ N) as [T [B|B]]; cbn [init tic] in *; [lia|].
    unfold INT_MAX in B. lia.
Qed.

(** The state the last iteration started from passed the loop test, unless
    it is the initial one. *)
Lemma last_step (b a v t_eps : float) (draws : list float) (s : state) (rest : list float) :
  walk b a v t_eps draws = Done (s, rest) ->
  exists s0 r,
    s = body (delta_of t_eps) (p_of v t_eps) r s0 /\
    (s0 = init b a \/ continue a s0 = true).
Proof.
  intros H. destruct (walk_Done _ _ _ _ _ _ _ H) as (n & L & N & _).
  unfold walk_trace in *.
  destruct (trace_step _ _ _ _ _ _ _ N) as (r & s0 & _ & P & E).
  exists s0, r. split; [exact E|].
  destruct n as [|k]; cbn [nth_error] in P.
  - left. congruence.
  - right. apply (trace_continue _ _ _ _ _ _ _ P). lia.
Qed.

(** * Part IV: properties of [random_walk] *)

#[local] Set Warnings "-inexact-float".

(** C1. Whenever [random_walk] returns, [choice] is read off the final
    position [x] by the strict test [x > a]: it is 1 if [x > a] and 0
    otherwise; a final position equal to [a] gives 0, one above [a] gives 1. *)
Theorem C1_classification (b a v t_eps : float) (draws : list float) (r : result) :
  random_walk b a v t_eps draws = Done r ->
  exists s rest,
    walk b a v t_eps draws = Done (s, rest) /\
    choice r = (if a <? x s then 1%Z else 0%Z) /\
    ((x s =? a) = true -> choice r = 0%Z) /\
    ((a <? x s) = true -> choice r = 1%Z).
Proof.
  intros H. destruct (random_walk_Done _ _ _ _ _ _ H) as (s & rest & W & ->).
  exists s, rest. split; [exact W|]. cbn [report choice]. unfold classify.
  split; [reflexivity|]. split.
  - intros E. rewrite (eqb_not_gtb _ _ E). reflexivity.
  - intros E. rewrite E. reflexivity.
Qed.

(** A run that stops exactly on the upper barrier: b = 0.5, a = 1,
    t_eps = 0.25 (delta = 0.5), one upward step. *)
Lemma C1_witness :
  random_walk 0.5 1 0 0.25 [0.25] = Done (mkResult 0 0.25) /\
  exists s rest,
    walk 0.5 1 0 0.25 [0.25] = Done (s, rest) /\
    choice (mkResult 0 0.25) = (if 1 <? x s then 1%Z else 0%Z) /\
    ((x s =? 1) = true -> choice (mkResult 0 0.25) = 0%Z) /\
    ((1 <? x s) = true -> choice (mkResult 0 0.25) = 1%Z).
Proof.
  split; [reflexivity|].
  apply (C1_classification 0.5 1 0 0.25 [0.25]). reflexivity.
Defined.







(** C5. [random_walk] derives its constants from the inputs alone and once:
    the walk starts at [x = a * b] with [tic = 0], and every iteration of
    the trajectory steps by the same [delta = sqrt(t_eps)] and compares its
    draw with the same [p = 0.5 * (1 + v * delta)].  Accordingly the state
    after iteration [k + 1] has [tic = k + 1], and what a returning call
    hands back is read off the last state of this trajectory. *)
Theorem C5_constants (b a v t_eps : float) (draws : list float) :
  (forall (k : nat) (t : state),
     nth_error (walk_trace b a v t_eps draws) k = Some t ->
     exists r s0,
       nth_error draws k = Some r /\
       nth_error (mkState (a * b) 0 :: walk_trace b a v t_eps draws) k = Some s0 /\
       x t = (if r <? 0.5 * (1 + v * PrimFloat.sqrt t_eps)
              then x s0 + PrimFloat.sqrt t_eps
              else x s0 - PrimFloat.sqrt t_eps) /\
       tic t = (tic s0 + 1)%Z /\
       tic t = Z.of_nat (S k)) /\
  (forall res : result,
     random_walk b a v t_eps draws = Done res ->
     exists n s rest,
       walk b a v t_eps draws = Done (s, rest) /\
       length (walk_trace b a v t_eps draws) = S n /\
       nth_error (walk_trace b a v t_eps draws) n = Some s /\
       res = mkResult (if a <? x s then 1%Z else 0%Z)
                      (double_of_int (Z.of_nat (S n)) * t_eps)).
Proof.
  split.
  - unfold walk_trace. intros k t H.
    destruct (trace_tic _ _ _ _ _ _ _ H) as [T _]. cbn [init tic] in T.
    destruct (trace_step _ _ _ _ _ _ _ H) as (r & s0 & D & P & E).
    exists r, s0. split; [exact D|]. split; [exact P|]. subst t.
    split; [reflexivity|]. split; [reflexivity|]. rewrite T. lia.
  - intros res H. destruct (random_walk_Done _ _ _ _ _ _ H) as (s & rest & W & ->).
    destruct (walk_Done _ _ _ _ _ _ _ W) as (n & L & N & _ & _ & T & _).
    exists n, s, rest. split; [exact W|]. split; [exact L|]. split; [exact N|].
    unfold report, classify. rewrite T. reflexivity.
Qed.

Lemma C5_witness :
  nth_error (walk_trace 0.5 1 0 0.0625 [0.25; 0.5; 0.5; 0.5]) 2 = Some (mkState 0.25 3) /\
  random_walk 0.5 1 0 0.0625 [0.25; 0.5; 0.5; 0.5] = Done (mkResult 0 0.25) /\
  (exists r s0,
     nth_error [0.25; 0.5; 0.5; 0.5] 2 = Some r /\
     nth_error (mkState (1 * 0.5) 0 :: walk_trace 0.5 1 0 0.0625 [0.25; 0.5; 0.5; 0.5]) 2 = Some s0 /\
     x (mkState 0.25 3) =
       (if r <? 0.5 * (1 + 0 * PrimFloat.sqrt 0.0625)
        then x s0 + PrimFloat.sqrt 0.0625
        else x s0 - PrimFloat.sqrt 0.0625) /\
     tic (mkState 0.25 3) = (tic s0 + 1)%Z /\
     tic (mkState 0.25 3) = Z.of_nat 3) /\
  (exists n s rest,
     walk 0.5 1 0 0.0625 [0.25; 0.5; 0.5; 0.5] = Done (s, rest) /\
     length (walk_trace 0.5 1 0 0.0625 [0.25; 0.5; 0.5; 0.5]) = S n /\
     nth_error (walk_trace 0.5 1 0 0.0625 [0.25; 0.5; 0.5; 0.5]) n = Some s /\
     mkResult 0 0.25 =
       mkResult (if 1 <? x s then 1%Z else 0%Z) (double_of_int (Z.of_nat (S n)) * 0.0625)).
Proof.
  split; [reflexivity|]. split; [reflexivity|]. split.
  - exact (proj1 (C5_constants 0.5 1 0 0.0625 [0.25; 0.5; 0.5; 0.5]) 2%nat (mkState 0.25 3) eq_refl).
  - exact (proj2 (C5_constants 0.5 1 0 0.0625 [0.25; 0.5; 0.5; 0.5]) (mkResult 0 0.25) eq_refl).
Defined.

(** C6. A returned call hands back [choice] in {0, 1} and
    [time = tic * t_eps], where [tic] is the number of iterations executed:
    the number of recorded states, which is also the number of draws
    consumed. *)
Theorem C6_result (b a v t_eps : float) (draws : list float) (r : result) :
  random_walk b a v t_eps draws = Done r ->
  (choice r = 0 \/ choice r = 1)%Z /\
  exists s rest,
    walk b a v t_eps draws = Done (s, rest) /\
    tic s = Z.of_nat (length (walk_trace b a v t_eps draws)) /\
    draws = firstn (length (walk_trace b a v t_eps draws)) draws ++ rest /\
    (1 <= tic s <= INT_MAX)%Z /\
    time r = double_of_int (tic s) * t_eps.
Proof.
  intros H. destruct (random_walk_Done _ _ _ _ _ _ H) as (s & rest & W & ->).
  destruct (walk_Done _ _ _ _ _ _ _ W) as (n & L & N & C & R & T & B).
  split.
  - cbn [report choice]. unfold classify. destruct (a <? x s); auto.
  - exists s, rest. split; [exact W|]. split; [congruence|]. split.
    + rewrite L, R. symmetry. apply firstn_skipn.
    + split; [lia|reflexivity].
Qed.

Lemma C6_witness :
  random_walk 0.5 1 0 0.0625 [0.25; 0.75; 0.25; 0.25; 0.5] = Done (mkResult 0 0.25) /\
  (choice (mkResult 0 0.25) = 0 \/ choice (mkResult 0 0.25) = 1)%Z /\
  exists s rest,
    walk 0.5 1 0 0.0625 [0.25; 0.75; 0.25; 0.25; 0.5] = Done (s, rest) /\
    tic s = Z.of_nat (length (walk_trace 0.5 1 0 0.0625 [0.25; 0.75; 0.25; 0.25; 0.5])) /\
    [0.25; 0.75; 0.25; 0.25; 0.5] =
      firstn (length (walk_trace 0.5 1 0 0.0625 [0.25; 0.75; 0.25; 0.25; 0.5]))
             [0.25; 0.75; 0.25; 0.25; 0.5] ++ rest /\
    (1 <= tic s <= INT_MAX)%Z /\
    time (mkResult 0 0.25) = double_of_int (tic s) * 0.0625.
Proof.
  split; [reflexivity|].
  apply (C6_result 0.5 1 0 0.0625 [0.25; 0.75; 0.25; 0.25; 0.5] (mkResult 0 0.25)).
  reflexivity.
Defined.

(** ** Walks that always step the same way *)

(** Absorption: at [x = 2^53] an upward step of [1] is rounded away, so a
    walk with [delta = 1] and [p = 1] that reaches it never leaves it. *)
Lemma absorbed (n : nat) (s : state) (res : state * list float) :
  x s = 0x1p+53 ->
  do_while 0x1p+54 1 1 (repeat 0.5 n) s <> Done res.
Proof.
  revert s. induction n as [|n IH]; intros s Hx; cbn [repeat do_while]; [discriminate|].
  destruct (tic s =? INT_MAX)%Z; [discriminate|].
  assert (E : x (body 1 1 0.5 s) = 0x1p+53) by (cbn [body x]; rewrite Hx; reflexivity).
  unfold continue at 1. rewrite E.
  change ((0x1p+53 <? 0x1p+54) && (0 <? 0x1p+53)) with true. cbv iota.
  apply IH. exact E.
Qed.

Lemma walk_absorbed (n : nat) (res : state * list float) :
  p_of 1 1 = 1 /\ delta_of 1 = 1 /\
  walk 0.5 0x1p+54 1 1 (repeat 0.5 n) <> Done res.
Proof.
  split; [reflexivity|]. split; [reflexivity|].
  unfold walk. change (delta_of 1) with 1. change (p_of 1 1) with 1.
  apply absorbed. reflexivity.
Qed.

(** C7 as stated fails: with a = 1, b = 0, v = 10, t_eps = 0.01 every
    precondition holds, [p] is exactly 1 and [delta] is the double nearest
    to 0.1, so that [ceil(a / delta) = 10]; yet ten upward steps accumulate
    to 0.99999999999999989 < 1 and the loop needs an eleventh iteration. *)
Lemma C7_counterexample :
  (0 <? 1) = true /\ (0 <? 0.01) = true /\
  (0 <=? 1 * 0) = true /\ (1 * 0 <=? 1) = true /\
  Forall (fun r => (0 <=? r) = true /\ (r <? 1) = true) (repeat 0.5 11) /\
  p_of 10 0.01 = 1 /\
  Prim2SF (delta_of 0.01) = S754_finite false 7205759403792794 (-56) /\
  (9 * 7205759403792794 < 2 ^ 56 <= 10 * 7205759403792794)%Z /\
  1 / delta_of 0.01 = 10 /\
  walk 0 1 10 0.01 (repeat 0.5 10) = Starved /\
  nth_error (walk_trace 0 1 10 0.01 (repeat 0.5 11)) 9 = Some (mkState 0x1.fffffffffffffp-1 10) /\
  continue 1 (mkState 0x1.fffffffffffffp-1 10) = true /\
  exists s, walk 0 1 10 0.01 (repeat 0.5 11) = Done (s, []) /\ tic s = 11%Z.
Proof.
  split; [reflexivity|]. split; [reflexivity|]. split; [reflexivity|].
  split; [reflexivity|]. split; [repeat constructor|]. split; [reflexivity|].
  split; [reflexivity|]. split; [lia|]. split; [reflexivity|].
  split; [reflexivity|]. split; [reflexivity|]. split; [reflexivity|].
  eexists. split; reflexivity.
Qed.

(** C7, amended. With every draw in [0, 1): if [p] is exactly 1 every
    iteration takes the upward step [x + delta], and if [p] is exactly 0
    every iteration takes the downward step [x - delta].  (No bound on the
    number of iterations is stated: see [C7_counterexample] and
    [walk_absorbed].) *)
Theorem C7_same_direction (b a v t_eps : float) (draws : list float) (k : nat) (t : state) :
  Forall (fun r => (0 <=? r) = true /\ (r <? 1) = true) draws ->
  nth_error (walk_trace b a v t_eps draws) k = Some t ->
  exists s0,
    nth_error (init b a :: walk_trace b a v t_eps draws) k = Some s0 /\
    ((p_of v t_eps =? 1) = true -> x t = x s0 + delta_of t_eps) /\
    ((p_of v t_eps =? 0) = true -> x t = x s0 - delta_of t_eps).
Proof.
  intros HF H. unfold walk_trace in *.
  destruct (trace_step _ _ _ _ _ _ _ H) as (r & s0 & D & P & ->).
  exists s0. split; [exact P|].
  apply nth_error_In in D. rewrite Forall_forall in HF. destruct (HF r D) as [R0 R1].
  cbn [body x]. split; intros E.
  - rewrite (draw_below_one _ _ E R1). reflexivity.
  - rewrite (draw_not_below_zero _ _ E R0). reflexivity.
Qed.

Lemma C7_witness :
  Forall (fun r => (0 <=? r) = true /\ (r <? 1) = true) [0.5; 0.25; 0.75] /\
  nth_error (walk_trace 0 1 4 0.0625 [0.5; 0.25; 0.75]) 2 = Some (mkState 0.75 3) /\
  (p_of 4 0.0625 =? 1) = true /\
  exists s0,
    nth_error (init 0 1 :: walk_trace 0 1 4 0.0625 [0.5; 0.25; 0.75]) 2 = Some s0 /\
    ((p_of 4 0.0625 =? 1) = true -> x (mkState 0.75 3) = x s0 + delta_of 0.0625) /\
    ((p_of 4 0.0625 =? 0) = true -> x (mkState 0.75 3) = x s0 - delta_of 0.0625).
Proof.
  assert (HF : Forall (fun r => (0 <=? r) = true /\ (r <? 1) = true) [0.5; 0.25; 0.75])
    by (repeat constructor).
  split; [exact HF|]. split; [reflexivity|]. split; [reflexivity|].
  apply (C7_same_direction 0 1 4 0.0625 [0.5; 0.25; 0.75] 2 (mkState 0.75 3) HF).
  reflexivity.
Defined.

(** ** Reproducibility *)

(** C8. The run is a function of its inputs and of the draws it consumes:
    a second run with the same inputs, fed draws that agree with the first
    run's as far as the first run read them, goes through the same states
    and returns the same [(choice, time)]. *)
Theorem C8_determinism (b a v t_eps : float) (draws draws' : list float) (r : result) :
  random_walk b a v t_eps draws = Done r ->
  firstn (length (walk_trace b a v t_eps draws)) draws' =
  firstn (length (walk_trace b a v t_eps draws)) draws ->
  walk_trace b a v t_eps draws' = walk_trace b a v t_eps draws /\
  random_walk b a v t_eps draws' = Done r.
Proof.
  intros H A. destruct (random_walk_Done _ _ _ _ _ _ H) as (s & rest & W & ->).
  unfold walk, walk_trace in *.
  destruct (do_while_agree _ _ _ _ _ _ _ _ W A) as [W' T'].
  split; [exact T'|]. unfold random_walk, walk. rewrite W'. reflexivity.
Qed.

Lemma C8_witness :
  random_walk 0.5 1 0 0.0625 [0.25; 0.75; 0.25; 0.25; 0.5] = Done (mkResult 0 0.25) /\
  walk_trace 0.5 1 0 0.0625 [0.25; 0.75; 0.25; 0.25; 0.75; 0.75] =
  walk_trace 0.5 1 0 0.0625 [0.25; 0.75; 0.25; 0.25; 0.5] /\
  random_walk 0.5 1 0 0.0625 [0.25; 0.75; 0.25; 0.25; 0.75; 0.75] = Done (mkResult 0 0.25).
Proof.
  split; [reflexivity|].
  apply (C8_determinism 0.5 1 0 0.0625 [0.25; 0.75; 0.25; 0.25; 0.5]
           [0.25; 0.75; 0.25; 0.25; 0.75; 0.75] (mkResult 0 0.25)); reflexivity.
Defined.

(** ** The last step of a walk that started inside the interval *)

Lemma delta_nonneg (t_eps : float) :
  (0 <=? t_eps) = true ->
  Fnan (delta_of t_eps) = false /\ (0 <= FR (delta_of t_eps))%R.
Proof. apply sqrt_nonneg. Qed.

(** C9 as stated fails: with a = 1, b = 2^-100, t_eps = 0.25 (delta = 0.5)
    the start 2^-100 lies strictly inside (0, a); one downward step is
    rounded to exactly -0.5 = -delta, which is neither above [-delta] nor at
    or above [a]. *)
Lemma C9_counterexample :
  (0 <? 1 * 0x1p-100) = true /\ (1 * 0x1p-100 <? 1) = true /\
  delta_of 0.25 = 0.5 /\
  walk 0x1p-100 1 0 0.25 [0.75] = Done (mkState (-0.5) 1, []) /\
  (- delta_of 0.25 <? -0.5) = false /\
  (1 <=? -0.5) = false.
Proof. repeat split; reflexivity. Qed.

(** The upper end is attained too: with a = 1.75, b = 0.75,
    t_eps = 2^106 (delta = 2^53) the start 1.3125 lies strictly inside
    (0, a); one upward step is rounded to 2^53 + 2, which is the rounded
    sum [a + delta] and exceeds the exact sum 2^53 + 1.75. *)
Lemma overshoot_upper_end :
  (0 <? 1.75 * 0.75) = true /\ (1.75 * 0.75 <? 1.75) = true /\
  delta_of 0x1p+106 = 0x1p+53 /\
  walk 0.75 1.75 0 0x1p+106 [0.25] = Done (mkState 9007199254740994 1, []) /\
  1.75 + delta_of 0x1p+106 = 9007199254740994 /\
  (4 * 9007199254740992 + 7 < 4 * 9007199254740994)%Z.
Proof. repeat split; reflexivity. Qed.

(** C9, amended. If [t_eps >= 0] (so that [delta] is a number) and the walk
    starts strictly inside (0, a), then on every returned call the position
    before the last step was strictly inside (0, a), the last step added or
    subtracted [delta], and the final position lies in [[-delta, 0]] or in
    [[a, a + delta]], both ends included, where [a + delta] is the rounded
    binary64 sum: the walk overshoots a barrier by at most one rounded
    step. *)
Theorem C9_overshoot (b a v t_eps : float) (draws : list float) (s : state) (rest : list float) :
  (0 <=? t_eps) = true ->
  (0 <? a * b) = true -> (a * b <? a) = true ->
  walk b a v t_eps draws = Done (s, rest) ->
  (exists s0 r,
     s = body (delta_of t_eps) (p_of v t_eps) r s0 /\
     (0 <? x s0) = true /\ (x s0 <? a) = true) /\
  (((- delta_of t_eps <=? x s) = true /\ (x s <=? 0) = true) \/
   ((a <=? x s) = true /\ (x s <=? a + delta_of t_eps) = true)).
Proof.
  intros Ht H0 Ha W.
  destruct (delta_nonneg t_eps Ht) as [Nd Pd].
  destruct (walk_Done _ _ _ _ _ _ _ W) as (n & _ & _ & C & _).
  destruct (last_step _ _ _ _ _ _ _ W) as (s0 & r & E & Hs0).
  assert (Hin : (0 <? x s0) = true /\ (x s0 <? a) = true).
  { destruct Hs0 as [->|Hc]; [cbn [init x]; auto|].
    unfold continue in Hc. apply andb_true_iff in Hc. tauto. }
  destruct Hin as [I0 Ia]. split; [exists s0, r; auto|]. subst s.
  unfold continue in C. cbn [body x] in C |- *.
  destruct (r <? p_of v t_eps).
  - right. exact (step_up_overshoot _ _ _ I0 Ia Nd Pd C).
  - left. destruct (step_down_overshoot _ _ _ I0 Ia Nd Pd C). auto.
Qed.

Lemma C9_witness :
  (0 <=? 0.25) = true /\
  (0 <? 1 * 0x1p-100) = true /\ (1 * 0x1p-100 <? 1) = true /\
  walk 0x1p-100 1 0 0.25 [0.75] = Done (mkState (-0.5) 1, []) /\
  (exists s0 r,
     mkState (-0.5) 1 = body (delta_of 0.25) (p_of 0 0.25) r s0 /\
     (0 <? x s0) = true /\ (x s0 <? 1) = true) /\
  (((- delta_of 0.25 <=? x (mkState (-0.5) 1)) = true /\ (x (mkState (-0.5) 1) <=? 0) = true) \/
   ((1 <=? x (mkState (-0.5) 1)) = true /\
    (x (mkState (-0.5) 1) <=? 1 + delta_of 0.25) = true)).
Proof.
  split; [reflexivity|]. split; [reflexivity|]. split; [reflexivity|].
  split; [reflexivity|].
  apply (C9_overshoot 0x1p-100 1 0 0.25 [0.75] (mkState (-0.5) 1) []); reflexivity.
Defined.

(** ** Walks that start outside the interval *)

(** A call whose first post-step state fails the loop test returns after
    that one iteration, with [time = t_eps]. *)
Lemma one_iteration (b a v t_eps r0 : float) (rest : list float) :
  continue a (body (delta_of t_eps) (p_of v t_eps) r0 (init b a)) = false ->
  walk_trace b a v t_eps (r0 :: rest) =
    [body (delta_of t_eps) (p_of v t_eps) r0 (init b a)] /\
  random_walk b a v t_eps (r0 :: rest) =
    Done (mkResult (classify a (x (body (delta_of t_eps) (p_of v t_eps) r0 (init b a)))) t_eps).
Proof.
  intros C. unfold random_walk, walk, walk_trace. cbn [do_while trace].
  change (tic (init b a) =? INT_MAX)%Z with false. cbv iota. rewrite C.
  split; [reflexivity|]. unfold report. cbn [body tic init].
  change (double_of_int (0 + 1)) with 1. rewrite mul_1_l. reflexivity.
Qed.

(** C10 as stated fails: with a = 2^53, b = 1 + 2^-52, t_eps = 1 (delta = 1,
    p = 0.5) the start a*b = 2^53 + 2 is above a + delta, yet a downward
    step gives 2^53 + 1, which rounds to 2^53 = a: the call returns
    [choice = 0], not 1. *)
Lemma C10_counterexample :
  0x1p+53 * 0x1.0000000000001p+0 = 9007199254740994 /\
  delta_of 1 = 1 /\ p_of 0 1 = 0.5 /\
  (0x1p+53 + delta_of 1 <? 0x1p+53 * 0x1.0000000000001p+0) = true /\
  (9007199254740992 + 1 < 9007199254740994)%Z /\
  walk 0x1.0000000000001p+0 0x1p+53 0 1 [0.75] = Done (mkState 0x1p+53 1, []) /\
  random_walk 0x1.0000000000001p+0 0x1p+53 0 1 [0.75] = Done (mkResult 0 1).
Proof. repeat split; reflexivity. Qed.

(** The lower half of C10 fails too when the barrier is negative:
    a = -100, b = 0.5, t_eps = 1 start at -50 < -delta, and the call
    returns [choice = 1] because the final position is above [a]. *)
Lemma far_below_negative_barrier :
  (-100 * 0.5 <? - delta_of 1) = true /\
  random_walk 0.5 (-100) 0 1 [0.75] = Done (mkResult 1 1) /\
  random_walk 0.5 (-100) 0 1 [0.25] = Done (mkResult 1 1).
Proof. repeat split; reflexivity. Qed.

(** A start above the exact sum of [a] and a finite [delta]: whatever the
    step, the position stays at or above [a]; after an upward step it is
    strictly above. *)
Lemma far_above_exact (x0 a d : float) :
  Fnan a = false -> Ffinite d = true -> (0 <= FR d)%R -> Fnan x0 = false ->
  (FR a + FR d < FR x0)%R ->
  Fnan (x0 + d) = false /\ (FR a < FR (x0 + d))%R /\
  Fnan (x0 - d) = false /\ (FR a <= FR (x0 - d))%R.
Proof.
  intros Na Fd Pd N0 H. pose proof OMEGA_pos as HO.
  pose proof (FR_bounds a) as Ba. pose proof (FR_bounds x0) as B0.
  destruct (F_class x0) as [C|[F0|[I0|I0]]]; [congruence| | |].
  - destruct (add_R _ _ F0 Fd) as [Nu Ru]. destruct (sub_R _ _ F0 Fd) as [Nl Rl].
    assert (Hu : (FR x0 <= FR (x0 + d))%R) by (apply (rounds_to_ge x0 _ _ F0 Ru); lra).
    assert (Hl : (FR a <= FR (x0 - d))%R).
    { destruct (F_class a) as [C|[Fa|[Ia|Ia]]]; [congruence| | |].
      - apply (rounds_to_ge a _ _ Fa Rl). lra.
      - destruct (FR_pinf _ Ia). lra.
      - destruct (FR_ninf _ Ia) as [V _]. rewrite V. apply FR_bounds. }
    split; [exact Nu|]. split; [lra|]. split; [exact Nl|exact Hl].
  - destruct (FR_pinf _ (add_pinf_l x0 d I0 Fd)) as [Vu Nu].
    destruct (FR_pinf _ (sub_inf_l x0 d false I0 Fd)) as [Vl Nl].
    destruct (FR_pinf _ I0) as [V0 _].
    split; [exact Nu|]. split; [lra|]. split; [exact Nl|lra].
  - destruct (FR_ninf _ I0). lra.
Qed.

(** C10, amended. No range check is made and no error is raised.  When the
    start [a * b] is above the sum [a + delta] -- the exact sum of the two
    doubles, [a] and [a * b] not being NaN and [delta] being finite, or the
    rounded sum the machine computes -- the first iteration ends the loop
    whatever the draw and [time = t_eps]; [choice] is 1 after an upward
    step; after a downward step it is 0 if the rounded [a * b - delta]
    equals [a], and 1 otherwise.  When the start is below [- delta], the
    first iteration ends the loop whatever the draw, [time = t_eps], and
    [choice] is 0 provided [a >= 0]. *)
Theorem C10_out_of_range (b a v t_eps r0 : float) (rest : list float) :
  ((a + delta_of t_eps <? a * b) = true \/
   (Fnan a = false /\ Ffinite (delta_of t_eps) = true /\ Fnan (a * b) = false /\
    (FR a + FR (delta_of t_eps) < FR (a * b))%R) ->
   length (walk_trace b a v t_eps (r0 :: rest)) = 1%nat /\
   random_walk b a v t_eps (r0 :: rest) =
     Done (mkResult (if r0 <? p_of v t_eps then 1%Z
                     else if a * b - delta_of t_eps =? a then 0%Z else 1%Z) t_eps)) /\
  ((a * b <? - delta_of t_eps) = true ->
   exists c,
     random_walk b a v t_eps (r0 :: rest) = Done (mkResult c t_eps) /\
     length (walk_trace b a v t_eps (r0 :: rest)) = 1%nat /\
     ((0 <=? a) = true -> c = 0%Z)).
Proof.
  split.
  - intros H.
    assert (K : Fnan a = false /\
                Fnan (a * b + delta_of t_eps) = false /\
                (FR a < FR (a * b + delta_of t_eps))%R /\
                Fnan (a * b - delta_of t_eps) = false /\
                (FR a <= FR (a * b - delta_of t_eps))%R).
    { destruct H as [H|(Na & Fd & N0 & H)].
      - assert (Nd : Fnan (delta_of t_eps) = false).
        { destruct (ltb_nonnan _ _ H) as [Ns _]. destruct (add_nan_inv _ _ Ns). assumption. }
        exact (far_above _ _ _ H (sqrt_not_nan_nonneg t_eps Nd)).
      - assert (Nd : Fnan (delta_of t_eps) = false).
        { unfold Ffinite in Fd. unfold Fnan.
          destruct (Prim2SF (delta_of t_eps)); try discriminate; reflexivity. }
        split; [exact Na|].
        exact (far_above_exact _ _ _ Na Fd (sqrt_not_nan_nonneg t_eps Nd) N0 H). }
    destruct K as (Na & Nu & Hu & Nl & Hl).
    assert (Cu : (a * b + delta_of t_eps <? a) = false).
    { destruct (a * b + delta_of t_eps <? a) eqn:E; [|reflexivity].
      apply ltb_true_R in E. lra. }
    assert (Cl : (a * b - delta_of t_eps <? a) = false).
    { destruct (a * b - delta_of t_eps <? a) eqn:E; [|reflexivity].
      apply ltb_true_R in E. lra. }
    assert (C : continue a (body (delta_of t_eps) (p_of v t_eps) r0 (init b a)) = false).
    { unfold continue. cbn [body x init]. destruct (r0 <? p_of v t_eps); [rewrite Cu|rewrite Cl];
        reflexivity. }
    destruct (one_iteration b a v t_eps r0 rest C) as [T R].
    split; [rewrite T; reflexivity|]. rewrite R.
    cbn [body x init]. unfold classify.
    destruct (r0 <? p_of v t_eps).
    + assert (E : (a <? a * b + delta_of t_eps) = true) by (apply ltb_R; assumption).
      rewrite E. reflexivity.
    + destruct (a * b - delta_of t_eps =? a) eqn:Q.
      * rewrite (eqb_not_gtb _ _ Q). reflexivity.
      * assert (E : (a <? a * b - delta_of t_eps) = true).
        { apply ltb_R; [exact Na|exact Nl|].
          destruct (Rle_lt_or_eq_dec _ _ Hl) as [L|L]; [exact L|exfalso].
          assert (Q' : (a * b - delta_of t_eps =? a) = true) by (apply eqb_R; auto).
          congruence. }
        rewrite E. reflexivity.
  - intros H.
    assert (Nd : Fnan (delta_of t_eps) = false).
    { destruct (ltb_nonnan _ _ H) as [_ No]. destruct (opp_R (delta_of t_eps)) as (_ & E & _).
      congruence. }
    pose proof (sqrt_not_nan_nonneg t_eps Nd) as Pd.
    destruct (far_below _ _ H Pd) as (Nu & Hu & Nl & Hl).
    assert (Cu : (0 <? a * b + delta_of t_eps) = false).
    { destruct (0 <? a * b + delta_of t_eps) eqn:E; [|reflexivity].
      apply ltb_true_R in E. rewrite (proj2 F_zero) in E. lra. }
    assert (Cl : (0 <? a * b - delta_of t_eps) = false).
    { destruct (0 <? a * b - delta_of t_eps) eqn:E; [|reflexivity].
      apply ltb_true_R in E. rewrite (proj2 F_zero) in E. lra. }
    assert (C : continue a (body (delta_of t_eps) (p_of v t_eps) r0 (init b a)) = false).
    { unfold continue. cbn [body x init]. destruct (r0 <? p_of v t_eps); [rewrite Cu|rewrite Cl];
        apply andb_false_r. }
    destruct (one_iteration b a v t_eps r0 rest C) as [T R].
    eexists. split; [exact R|]. split; [rewrite T; reflexivity|].
    intros A. apply leb_true_R in A. rewrite (proj2 F_zero) in A.
    cbn [body x init]. unfold classify.
    destruct (r0 <? p_of v t_eps).
    + destruct (a <? a * b + delta_of t_eps) eqn:E; [|reflexivity].
      apply ltb_true_R in E. lra.
    + destruct (a <? a * b - delta_of t_eps) eqn:E; [|reflexivity].
      apply ltb_true_R in E. lra.
Qed.

(** The values of the doubles used below. *)
Lemma FR_example_values :
  FR 1 = 1%R /\
  FR (delta_of 0x1.2p-105) = (3 * bpow (-54))%R /\
  FR (1 * 0x1.0000000000001p+0) = (1 + 4 * bpow (-54))%R.
Proof.
  assert (B : (bpow (-54) * 18014398509481984 = 1)%R).
  { change 18014398509481984%R with (IZR (2 ^ 54)).
    rewrite <- (bpow_IZR 54) by lia. rewrite <- bpow_add. apply bpow_0. }
  split; [exact (proj2 F_one)|]. split.
  - unfold FR.
    replace (Prim2SF (delta_of 0x1.2p-105))
      with (S754_finite false 6755399441055744 (-105)) by reflexivity.
    cbn [SF2R cond_Zopp]. change 6755399441055744%Z with (3 * 2 ^ 51)%Z.
    rewrite F2R_shift by lia. unfold F2R. reflexivity.
  - unfold FR.
    replace (Prim2SF (1 * 0x1.0000000000001p+0))
      with (S754_finite false 4503599627370497 (-52)) by reflexivity.
    cbn [SF2R cond_Zopp]. unfold F2R.
    replace (-52)%Z with (-54 + 2)%Z by reflexivity. rewrite bpow_add.
    replace (bpow 2) with 4%R by (unfold bpow; cbn; unfold Pos.to_nat; cbn; lra).
    lra.
Qed.

(** With a = 1, b = 1 + 2^-52 and t_eps = 1.125 * 2^-105 (delta = 1.5 * 2^-53)
    the start 1 + 2^-52 is above the exact sum a + delta but equal to the
    rounded one; a downward step is rounded onto [a] and the call returns
    [choice = 0], an upward step gives [choice = 1]. *)
Lemma C10_witness :
  (1 + delta_of 0x1.2p-105 <? 1 * 0x1.0000000000001p+0) = false /\
  (FR 1 + FR (delta_of 0x1.2p-105) < FR (1 * 0x1.0000000000001p+0))%R /\
  (length (walk_trace 0x1.0000000000001p+0 1 0 0x1.2p-105 [0.75]) = 1%nat /\
   random_walk 0x1.0000000000001p+0 1 0 0x1.2p-105 [0.75] =
     Done (mkResult
             (if 0.75 <? p_of 0 0x1.2p-105 then 1%Z
              else if 1 * 0x1.0000000000001p+0 - delta_of 0x1.2p-105 =? 1 then 0%Z else 1%Z)
             0x1.2p-105)) /\
  random_walk 0x1.0000000000001p+0 1 0 0x1.2p-105 [0.75] = Done (mkResult 0 0x1.2p-105) /\
  random_walk 0x1.0000000000001p+0 1 0 0x1.2p-105 [0.25] = Done (mkResult 1 0x1.2p-105) /\
  ((1 + delta_of 0.25 <? 1 * 3) = true /\
   random_walk 3 1 0 0.25 [0.75] = Done (mkResult 1 0.25)) /\
  ((1 * -3 <? - delta_of 0.25) = true /\
   exists c,
     random_walk (-3) 1 0 0.25 [0.25] = Done (mkResult c 0.25) /\
     length (walk_trace (-3) 1 0 0.25 [0.25]) = 1%nat /\
     ((0 <=? 1) = true -> c = 0%Z)).
Proof.
  assert (H : (FR 1 + FR (delta_of 0x1.2p-105) < FR (1 * 0x1.0000000000001p+0))%R).
  { destruct FR_example_values as (-> & -> & ->). pose proof (bpow_gt_0 (-54)). lra. }
  split; [reflexivity|]. split; [exact H|]. split.
  - apply (proj1 (C10_out_of_range 0x1.0000000000001p+0 1 0 0x1.2p-105 0.75 [])).
    right. split; [reflexivity|]. split; [reflexivity|]. split; [reflexivity|exact H].
  - split; [reflexivity|]. split; [reflexivity|]. split.
    + split; [reflexivity|].
      exact (proj2 (proj1 (C10_out_of_range 3 1 0 0.25 0.75 []) (or_introl eq_refl))).
    + split; [reflexivity|].
      apply (proj2 (C10_out_of_range (-3) 1 0 0.25 0.25 [])). reflexivity.
Defined.

(** * Part V: edge behaviour of [random_walk]

    The function validates nothing.  What follows is what the code does on
    the inputs its documentation rules out, and how the reported outcome
    depends on the last step. *)

(** ** NaN *)

Lemma SFcompare_refl (f : spec_float) : SF_nan f = false -> SFcompare f f = Some Eq.
Proof.
  destruct f as [s|s| |s m e]; try discriminate; intros _; cbn [SFcompare].
  - reflexivity.
  - destruct s; reflexivity.
  - rewrite Z.compare_refl.
    change (Pos.compare_cont Eq m m) with (m ?= m)%positive. rewrite Pos.compare_refl.
    destruct s; reflexivity.
Qed.

(** The library test [is_nan] is the NaN test on the datum. *)
Lemma is_nan_Fnan (u : float) : is_nan u = Fnan u.
Proof.
  unfold is_nan, Fnan. rewrite eqb_spec. unfold SFeqb.
  destruct (SF_nan (Prim2SF u)) eqn:N.
  - destruct (Prim2SF u); try discriminate. reflexivity.
  - rewrite (SFcompare_refl _ N). reflexivity.
Qed.

Lemma sub_nan_inv (u w : float) :
  Fnan (u - w) = false -> Fnan u = false /\ Fnan w = false.
Proof.
  unfold Fnan. rewrite sub_spec. unfold SF64sub.
  destruct (Prim2SF u) as [s|s| |s m e], (Prim2SF w) as [s'|s'| |s' m' e'];
    cbn [SFsub SF_nan]; auto; try discriminate.
Qed.

Lemma mul_nan_inv (u w : float) :
  Fnan (u * w) = false -> Fnan u = false /\ Fnan w = false.
Proof.
  unfold Fnan. rewrite mul_spec. unfold SF64mul.
  destruct (Prim2SF u) as [s|s| |s m e], (Prim2SF w) as [s'|s'| |s' m' e'];
    cbn [SFmul SF_nan]; auto; try discriminate.
Qed.

Lemma sqrt_nan_inv (t : float) : Fnan (PrimFloat.sqrt t) = false -> Fnan t = false.
Proof.
  unfold Fnan. rewrite sqrt_spec. unfold SF64sqrt.
  destruct (Prim2SF t) as [s|s| |s m e]; cbn [SFsqrt SF_nan]; auto.
Qed.

(** The square root of a negative number is a NaN. *)
Lemma sqrt_negative (t : float) : (t <? 0) = true -> Fnan (PrimFloat.sqrt t) = true.
Proof.
  rewrite ltb_spec. unfold Fnan. rewrite sqrt_spec. unfold SFltb, SF64sqrt.
  replace (Prim2SF 0) with (S754_zero false) by reflexivity.
  destruct (Prim2SF t) as [s|s| |s m e]; cbn [SFcompare SFsqrt SF_nan];
    try discriminate; destruct s; try discriminate; reflexivity.
Qed.

(** A step from or by a NaN gives a NaN, which fails every comparison. *)
Lemma nan_step (x0 d : float) :
  Fnan x0 = true \/ Fnan d = true ->
  Fnan (x0 + d) = true /\ Fnan (x0 - d) = true.
Proof.
  intros H. split.
  - destruct (Fnan (x0 + d)) eqn:E; [reflexivity|].
    destruct (add_nan_inv _ _ E). destruct H; congruence.
  - destruct (Fnan (x0 - d)) eqn:E; [reflexivity|].
    destruct (sub_nan_inv _ _ E). destruct H; congruence.
Qed.

Lemma ltb_nan (u w : float) : Fnan u = true \/ Fnan w = true -> (u <? w) = false.
Proof.
  intros H. destruct (u <? w) eqn:E; [|reflexivity].
  destruct (ltb_nonnan _ _ E). destruct H; congruence.
Qed.

(** X1. A NaN input, or a negative [t_eps] (whose square root is a NaN),
    is not reported: as soon as one draw is available the call returns after
    exactly one iteration, with [choice = 0] and [time = t_eps], whatever
    the other inputs and the draw are. *)
Theorem nan_in_choice_zero_out (b a v t_eps r0 : float) (rest : list float) :
  is_nan a = true \/ is_nan b = true \/ is_nan t_eps = true \/ (t_eps <? 0) = true ->
  length (walk_trace b a v t_eps (r0 :: rest)) = 1%nat /\
  random_walk b a v t_eps (r0 :: rest) = Done (mkResult 0 t_eps).
Proof.
  intros H. rewrite !is_nan_Fnan in H.
  assert (N : Fnan (a * b) = true \/ Fnan (delta_of t_eps) = true).
  { destruct H as [H|[H|[H|H]]].
    - left. destruct (Fnan (a * b)) eqn:E; [reflexivity|].
      destruct (mul_nan_inv _ _ E). congruence.
    - left. destruct (Fnan (a * b)) eqn:E; [reflexivity|].
      destruct (mul_nan_inv _ _ E). congruence.
    - right. unfold delta_of. destruct (Fnan (PrimFloat.sqrt t_eps)) eqn:E; [reflexivity|].
      pose proof (sqrt_nan_inv _ E). congruence.
    - right. apply sqrt_negative. exact H. }
  destruct (nan_step _ _ N) as [Nu Nl].
  set (s1 := body (delta_of t_eps) (p_of v t_eps) r0 (init b a)).
  assert (Nx : Fnan (x s1) = true).
  { unfold s1. cbn [body x init]. destruct (r0 <? p_of v t_eps); assumption. }
  assert (C : continue a s1 = false).
  { unfold continue. rewrite (ltb_nan (x s1) a (or_introl Nx)). reflexivity. }
  destruct (one_iteration b a v t_eps r0 rest C) as [T R]. fold s1 in T, R.
  split; [rewrite T; reflexivity|]. rewrite R. unfold classify.
  rewrite (ltb_nan a (x s1) (or_intror Nx)). reflexivity.
Qed.

Lemma nan_in_choice_zero_out_witness :
  (is_nan 1 = true \/ is_nan 0.5 = true \/ is_nan (-0.25) = true \/ (-0.25 <? 0) = true) /\
  length (walk_trace 0.5 1 0 (-0.25) [0.25]) = 1%nat /\
  random_walk 0.5 1 0 (-0.25) [0.25] = Done (mkResult 0 (-0.25)).
Proof.
  assert (H : is_nan 1 = true \/ is_nan 0.5 = true \/ is_nan (-0.25) = true \/
              (-0.25 <? 0) = true) by (right; right; right; reflexivity).
  split; [exact H|].
  exact (nan_in_choice_zero_out 0.5 1 0 (-0.25) 0.25 [] H).
Defined.

(** ** A barrier that is not positive *)

(** The loop repeats only while [0 < x < a], which needs [0 < a]. *)
Lemma continue_positive_barrier (a : float) (s : state) :
  continue a s = true -> (0 <? a) = true.
Proof.
  unfold continue. intros H. apply andb_prop in H. destruct H as [H1 H2].
  destruct (ltb_nonnan _ _ H1) as [_ Na].
  apply (ltb_R 0 a F_zero_nan Na).
  pose proof (ltb_true_R _ _ H1). pose proof (ltb_true_R _ _ H2). lra.
Qed.

(** X2. Unless [0 < a] (so for [a <= 0] and for a NaN [a]) the loop test
    can never hold: every call that gets one draw returns after exactly one
    iteration with [time = t_eps], and [choice] is read off the position
    after that single step. *)
Theorem barrier_not_positive (b a v t_eps r0 : float) (rest : list float) :
  (0 <? a) = false ->
  walk_trace b a v t_eps (r0 :: rest) =
    [body (delta_of t_eps) (p_of v t_eps) r0 (init b a)] /\
  random_walk b a v t_eps (r0 :: rest) =
    Done (mkResult (if a <? x (body (delta_of t_eps) (p_of v t_eps) r0 (init b a))
                    then 1%Z else 0%Z) t_eps).
Proof.
  intros H. apply one_iteration.
  destruct (continue a (body (delta_of t_eps) (p_of v t_eps) r0 (init b a))) eqn:C;
    [|reflexivity].
  apply continue_positive_barrier in C. congruence.
Qed.

Lemma barrier_not_positive_witness :
  (0 <? -1) = false /\
  walk_trace 0.5 (-1) 0 0.25 [0.25; 0.75] = [mkState 0 1] /\
  random_walk 0.5 (-1) 0 0.25 [0.25; 0.75] = Done (mkResult 1 0.25).
Proof.
  split; [reflexivity|].
  exact (barrier_not_positive 0.5 (-1) 0 0.25 0.25 [0.75] eq_refl).
Defined.

(** ** Walks that cannot move *)

Section Stuck.
Variables a delta p x0 : float.
Hypothesis up : x0 + delta = x0.
Hypothesis down : x0 - delta = x0.
Hypothesis inside : (x0 <? a) && (0 <? x0) = true.

(** From a position that both steps round back to, the loop runs until the
    draws are used up or the counter reaches [INT_MAX]. *)
Lemma stuck_do_while (draws : list float) (s : state) :
  x s = x0 -> (0 <= tic s <= INT_MAX)%Z ->
  do_while a delta p draws s =
    if (Z.of_nat (length draws) <=? INT_MAX - tic s)%Z then Starved else Undefined.
Proof.
  revert s. induction draws as [|r rest IH]; intros s Hx Ht.
  - cbn [do_while length]. destruct (Z.leb_spec (Z.of_nat 0) (INT_MAX - tic s)); [reflexivity|lia].
  - cbn [do_while]. destruct (Z.eqb_spec (tic s) INT_MAX) as [E|E].
    + destruct (Z.leb_spec (Z.of_nat (length (r :: rest))) (INT_MAX - tic s)) as [L|L];
        [|reflexivity].
      cbn [length] in L. lia.
    + assert (E1 : x (body delta p r s) = x0).
      { cbn [body x]. rewrite Hx, up, down. destruct (r <? p); reflexivity. }
      unfold continue at 1. rewrite E1, inside.
      rewrite (IH (body delta p r s) E1) by (cbn [body tic]; lia).
      cbn [body tic length].
      destruct (Z.leb_spec (Z.of_nat (length rest)) (INT_MAX - (tic s + 1)));
        destruct (Z.leb_spec (Z.of_nat (S (length rest))) (INT_MAX - tic s));
        try reflexivity; lia.
Qed.

End Stuck.

Lemma stuck_walk (b a v t_eps : float) (draws : list float) :
  a * b + delta_of t_eps = a * b ->
  a * b - delta_of t_eps = a * b ->
  (a * b <? a) = true -> (0 <? a * b) = true ->
  random_walk b a v t_eps draws =
    if (Z.of_nat (length draws) <=? INT_MAX)%Z then Starved else Undefined.
Proof.
  intros U D I1 I2. unfold random_walk, walk.
  rewrite (stuck_do_while a (delta_of t_eps) (p_of v t_eps) (a * b) U D).
  - cbn [init tic]. rewrite Z.sub_0_r. destruct (_ <=? _)%Z; reflexivity.
  - rewrite I1, I2. reflexivity.
  - reflexivity.
  - cbn [init tic]. unfold INT_MAX. lia.
Qed.

(** X3. The loop has no iteration cap.  When the start [a * b] lies
    strictly between the barriers and the step is lost in rounding in both
    directions ([a * b + delta] and [a * b - delta] both give [a * b] back),
    the position never changes and no sequence of draws makes the call
    return: the loop is still running when the draws are used up, and a run
    of more than [INT_MAX] iterations overflows the counter. *)
Theorem absorbed_walk_never_returns (b a v t_eps : float) (draws : list float) :
  a * b + delta_of t_eps = a * b ->
  a * b - delta_of t_eps = a * b ->
  (a * b <? a) = true -> (0 <? a * b) = true ->
  (forall r, random_walk b a v t_eps draws <> Done r) /\
  random_walk b a v t_eps draws =
    if (Z.of_nat (length draws) <=? INT_MAX)%Z then Starved else Undefined.
Proof.
  intros U D I1 I2. pose proof (stuck_walk b a v t_eps draws U D I1 I2) as E.
  split; [|exact E]. intros r. rewrite E. destruct (_ <=? _)%Z; discriminate.
Qed.

Lemma absorbed_walk_never_returns_witness :
  0x1p+55 * 0.5 + delta_of 1 = 0x1p+55 * 0.5 /\
  0x1p+55 * 0.5 - delta_of 1 = 0x1p+55 * 0.5 /\
  (forall r, random_walk 0.5 0x1p+55 0 1 [0.25; 0.75; 0.25] <> Done r) /\
  random_walk 0.5 0x1p+55 0 1 [0.25; 0.75; 0.25] = Starved.
Proof.
  split; [reflexivity|]. split; [reflexivity|].
  exact (absorbed_walk_never_returns 0.5 0x1p+55 0 1 [0.25; 0.75; 0.25]
           eq_refl eq_refl eq_refl eq_refl).
Defined.

(** Adding or subtracting a zero leaves a non-zero number as it is. *)
Lemma step_by_zero (x0 d : float) :
  (0 <? x0) = true -> (d =? 0) = true -> x0 + d = x0 /\ x0 - d = x0.
Proof.
  rewrite ltb_spec, eqb_spec. unfold SFltb, SFeqb.
  replace (Prim2SF 0) with (S754_zero false) by reflexivity.
  intros Hx Hd.
  split; apply Prim2SF_inj; [rewrite add_spec; unfold SF64add|rewrite sub_spec; unfold SF64sub];
    destruct (Prim2SF x0) as [s|s| |s m e], (Prim2SF d) as [s'|s'| |s' m' e'];
    cbn [SFcompare] in Hx, Hd; try discriminate; try reflexivity;
    destruct s'; discriminate.
Qed.

(** The square root of a zero is a zero. *)
Lemma sqrt_zero (t : float) : (t =? 0) = true -> (PrimFloat.sqrt t =? 0) = true.
Proof.
  rewrite !eqb_spec, sqrt_spec. unfold SFeqb, SF64sqrt.
  replace (Prim2SF 0) with (S754_zero false) by reflexivity.
  destruct (Prim2SF t) as [s|s| |s m e]; cbn [SFcompare SFsqrt]; try discriminate.
  - reflexivity.
  - destruct s; discriminate.
  - destruct s; discriminate.
Qed.

(** X4. [t_eps = 0] is accepted and gives a step [delta = 0]: from a start
    strictly between the barriers the position never changes, so the call
    never returns, whatever the drift and the draws. *)
Theorem zero_step_never_returns (b a v t_eps : float) (draws : list float) :
  (t_eps =? 0) = true ->
  (a * b <? a) = true -> (0 <? a * b) = true ->
  (forall r, random_walk b a v t_eps draws <> Done r) /\
  random_walk b a v t_eps draws =
    if (Z.of_nat (length draws) <=? INT_MAX)%Z then Starved else Undefined.
Proof.
  intros T I1 I2.
  destruct (step_by_zero (a * b) (delta_of t_eps) I2 (sqrt_zero _ T)) as [U D].
  pose proof (stuck_walk b a v t_eps draws U D I1 I2) as E.
  split; [|exact E]. intros r. rewrite E. destruct (_ <=? _)%Z; discriminate.
Qed.

Lemma zero_step_never_returns_witness :
  (0 =? 0) = true /\ (1 * 0.5 <? 1) = true /\ (0 <? 1 * 0.5) = true /\
  (forall r, random_walk 0.5 1 2 0 [0.25; 0.75] <> Done r) /\
  random_walk 0.5 1 2 0 [0.25; 0.75] = Starved.
Proof.
  split; [reflexivity|]. split; [reflexivity|]. split; [reflexivity|].
  exact (zero_step_never_returns 0.5 1 2 0 [0.25; 0.75] eq_refl eq_refl eq_refl).
Defined.

(** ** The iteration counter *)

Lemma do_while_counter (a delta p : float) (draws : list float) (s : state) :
  (0 <= tic s)%Z -> (tic s + Z.of_nat (length draws) <= INT_MAX)%Z ->
  do_while a delta p draws s <> Undefined.
Proof.
  revert s. induction draws as [|r rest IH]; intros s H0 H; cbn [do_while]; [discriminate|].
  cbn [length] in H. destruct (Z.eqb_spec (tic s) INT_MAX) as [E|E]; [lia|].
  destruct (continue a (body delta p r s)); [|discriminate].
  apply IH; cbn [body tic]; lia.
Qed.

(** X5. The [int] counter [tic] starts at 0 and grows by one per iteration,
    so the increment cannot overflow in a run of at most [INT_MAX]
    iterations: a call given at most [INT_MAX] draws either returns or is
    still looping when they are used up. *)
Theorem counter_overflow_needs_INT_MAX_steps (b a v t_eps : float) (draws : list float) :
  (Z.of_nat (length draws) <= INT_MAX)%Z ->
  random_walk b a v t_eps draws <> Undefined.
Proof.
  intros H. unfold random_walk, walk.
  pose proof (do_while_counter a (delta_of t_eps) (p_of v t_eps) draws (init b a)) as E.
  cbn [init tic] in E. specialize (E ltac:(lia) ltac:(lia)).
  destruct (do_while _ _ _ _ _) as [[s rest]| |]; try discriminate. congruence.
Qed.

Lemma counter_overflow_needs_INT_MAX_steps_witness :
  Z.le (Z.of_nat (length [0.25; 0.75])) INT_MAX /\
  random_walk 0.5 1 0 0.0625 [0.25; 0.75] <> Undefined.
Proof.
  assert (H : Z.le (Z.of_nat (length [0.25; 0.75])) INT_MAX) by (vm_compute; discriminate).
  split; [exact H|].
  exact (counter_overflow_needs_INT_MAX_steps 0.5 1 0 0.0625 [0.25; 0.75] H).
Defined.

(** ** The last step and the reported choice *)

Lemma leb_cases (u w : float) :
  (u <=? w) = true -> (u <? w) = true \/ (w =? u) = true.
Proof.
  intros H. destruct (leb_nonnan _ _ H) as [Nu Nw]. apply leb_true_R in H.
  destruct (Rle_lt_or_eq_dec _ _ H) as [L|E].
  - left. apply ltb_R; assumption.
  - right. apply eqb_R; auto.
Qed.

(** The state before the last iteration of a run from strictly inside the
    interval is strictly inside the interval. *)
Lemma before_last_step (b a v t_eps : float) (draws : list float) (s : state) (rest : list float) :
  (0 <? a * b) = true -> (a * b <? a) = true ->
  walk b a v t_eps draws = Done (s, rest) ->
  exists n r s0,
    tic s = Z.of_nat (S n) /\ nth_error draws n = Some r /\
    s = body (delta_of t_eps) (p_of v t_eps) r s0 /\
    (0 <? x s0) = true /\ (x s0 <? a) = true /\ continue a s = false.
Proof.
  intros I0 Ia H. destruct (walk_Done _ _ _ _ _ _ _ H) as (n & L & N & C & _ & T & _).
  unfold walk_trace in *.
  destruct (trace_step _ _ _ _ _ _ _ N) as (r & s0 & D & P & E).
  exists n, r, s0. split; [exact T|]. split; [exact D|]. split; [exact E|].
  assert (K : s0 = init b a \/ continue a s0 = true).
  { destruct n as [|k]; cbn [nth_error] in P.
    - left. congruence.
    - right. apply (trace_continue _ _ _ _ _ _ _ P). lia. }
  destruct K as [->|K].
  - cbn [init x]. auto.
  - unfold continue in K. apply andb_prop in K. destruct K. auto.
Qed.

(** X6. For [t_eps >= 0] and a start strictly between the barriers, the last
    draw consumed decides the outcome: if it was not below [p] the walk
    stepped down, stopped at or below zero and [choice] is 0; if it was below
    [p] the walk stepped up, stopped at or above [a], and [choice] is 1 unless
    the final position equals [a].  So [choice = 1] is only ever reported
    after an upward last step. *)
Theorem last_draw_decides (b a v t_eps : float) (draws : list float) (res : result) :
  (0 <=? t_eps) = true -> (0 <? a * b) = true -> (a * b <? a) = true ->
  random_walk b a v t_eps draws = Done res ->
  exists s rest n r,
    walk b a v t_eps draws = Done (s, rest) /\
    tic s = Z.of_nat (S n) /\ nth_error draws n = Some r /\
    ((r <? p_of v t_eps) = true ->
       (a <=? x s) = true /\ (choice res = 1%Z \/ (x s =? a) = true)) /\
    ((r <? p_of v t_eps) = false -> (x s <=? 0) = true /\ choice res = 0%Z) /\
    (choice res = 1%Z -> (r <? p_of v t_eps) = true).
Proof.
  intros Ht I0 Ia H. destruct (random_walk_Done _ _ _ _ _ _ H) as (s & rest & W & ->).
  destruct (before_last_step _ _ _ _ _ _ _ I0 Ia W) as (n & r & s0 & T & D & E & P0 & Pa & C).
  destruct (delta_nonneg t_eps Ht) as [Nd Pd].
  exists s, rest, n, r. split; [exact W|]. split; [exact T|]. split; [exact D|].
  cbn [report choice]. unfold classify.
  assert (Dn : (r <? p_of v t_eps) = false -> (x s <=? 0) = true /\ (a <? x s) = false).
  { intros R. rewrite E in *. unfold continue in C. cbn [body x] in *. rewrite R in *.
    destruct (step_down_overshoot _ _ _ P0 Pa Nd Pd C) as [L _].
    split; [exact L|].
    destruct (a <? x s0 - delta_of t_eps) eqn:G; [|reflexivity].
    apply ltb_true_R in G. apply leb_true_R in L. apply ltb_true_R in P0, Pa.
    rewrite (proj2 F_zero) in *. lra. }
  split; [|split].
  - intros R. rewrite E in *. unfold continue in C. cbn [body x] in *. rewrite R in *.
    destruct (step_up_overshoot _ _ _ P0 Pa Nd Pd C) as [L _].
    split; [exact L|]. destruct (leb_cases _ _ L) as [G|G].
    + left. rewrite G. reflexivity.
    + right. exact G.
  - intros R. destruct (Dn R) as [L G]. split; [exact L|]. rewrite G. reflexivity.
  - intros K. destruct (r <? p_of v t_eps) eqn:R; [reflexivity|].
    destruct (Dn eq_refl) as [_ G]. rewrite G in K. discriminate.
Qed.

Lemma last_draw_decides_witness :
  exists s rest n r,
    walk 0.5 1 0 0.0625 [0.25; 0.75; 0.75; 0.75] = Done (s, rest) /\
    tic s = Z.of_nat (S n) /\ nth_error [0.25; 0.75; 0.75; 0.75] n = Some r /\
    ((r <? p_of 0 0.0625) = true ->
       (1 <=? x s) = true /\ (choice (mkResult 0 0.25) = 1%Z \/ (x s =? 1) = true)) /\
    ((r <? p_of 0 0.0625) = false ->
       (x s <=? 0) = true /\ choice (mkResult 0 0.25) = 0%Z) /\
    (choice (mkResult 0 0.25) = 1%Z -> (r <? p_of 0 0.0625) = true).
Proof.
  exact (last_draw_decides 0.5 1 0 0.0625 [0.25; 0.75; 0.75; 0.75] (mkResult 0 0.25)
           eq_refl eq_refl eq_refl eq_refl).
Defined.

(** ** A start on or beyond a barrier *)

(** A downward step from at or below zero stays at or below zero. *)
Lemma down_from_nonpositive (x0 d : float) :
  (x0 <=? 0) = true -> Fnan d = false -> (0 <= FR d)%R ->
  Fnan (x0 - d) = false /\ (FR (x0 - d) <= 0)%R.
Proof.
  intros H Nd Pd. pose proof OMEGA_pos as HO.
  destruct (leb_nonnan _ _ H) as [N0 _]. apply leb_true_R in H.
  rewrite (proj2 F_zero) in H.
  destruct (F_class x0) as [C|[F0|[I0|I0]]]; [congruence| | |].
  - destruct (F_class_nonneg d Nd Pd) as [Fd|Id].
    + destruct (sub_R _ _ F0 Fd) as [N Rx]. split; [exact N|].
      rewrite <- (proj2 F_zero). apply (rounds_to_le 0 _ _ (proj1 F_zero) Rx).
      rewrite (proj2 F_zero). lra.
    + destruct (FR_ninf _ (sub_pinf_r x0 d F0 Id)) as [V N]. split; [exact N|lra].
  - destruct (FR_pinf _ I0). lra.
  - assert (E : Prim2SF (x0 - d) = S754_infinity true).
    { destruct (F_class_nonneg d Nd Pd) as [Fd|Id]; [exact (sub_inf_l x0 d true I0 Fd)|].
      rewrite sub_spec, I0, Id. reflexivity. }
    destruct (FR_ninf _ E) as [V N]. split; [exact N|lra].
Qed.

(** An upward step from at or above [a] does not come back below [a]. *)
Lemma up_from_barrier (x0 a d : float) :
  (a <=? x0) = true -> Fnan d = false -> (0 <= FR d)%R ->
  (x0 + d <? a) = false.
Proof.
  intros H Nd Pd. pose proof OMEGA_pos as HO.
  destruct (leb_nonnan _ _ H) as [Na N0]. apply leb_true_R in H.
  destruct (Fnan (x0 + d)) eqn:N; [apply ltb_nan; auto|].
  destruct (x0 + d <? a) eqn:G; [exfalso|reflexivity]. apply ltb_true_R in G.
  pose proof (FR_bounds a) as Ba.
  destruct (F_class_nonneg d Nd Pd) as [Fd|Id].
  - destruct (F_class x0) as [C|[F0|[I0|I0]]]; [congruence| | |].
    + destruct (add_R _ _ F0 Fd) as [_ Rx].
      assert (FR x0 <= FR (x0 + d))%R by (apply (rounds_to_ge x0 _ _ F0 Rx); lra). lra.
    + destruct (FR_pinf _ (add_pinf_l x0 d I0 Fd)). lra.
    + destruct (FR_ninf _ (add_ninf_l x0 d I0 Fd)). destruct (FR_ninf _ I0). lra.
  - destruct (F_class x0) as [C|[F0|[I0|I0]]]; [congruence| | |].
    + assert (E : Prim2SF (x0 + d) = S754_infinity false).
      { apply add_pinf_r; [exact N0| |exact Id]. intros C.
        unfold Ffinite in F0. rewrite C in F0. discriminate. }
      destruct (FR_pinf _ E). lra.
    + assert (E : Prim2SF (x0 + d) = S754_infinity false).
      { apply add_pinf_r; [exact N0| |exact Id]. congruence. }
      destruct (FR_pinf _ E). lra.
    + unfold Fnan in N. rewrite add_spec, I0, Id in N. discriminate.
Qed.

(** X7. The start is not compared with the barriers before the first step
    (the loop is a do-while), so what a start on or beyond a barrier gives
    depends on the first draw.  For [t_eps >= 0]: from [a * b >= a] an upward
    first step ends the run after one iteration with [time = t_eps] and
    [choice] read off [a * b + delta]; from [a * b <= 0] a downward first
    step ends the run after one iteration with [time = t_eps], and with
    [choice = 0] unless [a < 0]. *)
Theorem start_on_barrier (b a v t_eps r0 : float) (rest : list float) :
  (0 <=? t_eps) = true ->
  ((a <=? a * b) = true -> (r0 <? p_of v t_eps) = true ->
   length (walk_trace b a v t_eps (r0 :: rest)) = 1%nat /\
   random_walk b a v t_eps (r0 :: rest) =
     Done (mkResult (if a <? a * b + delta_of t_eps then 1%Z else 0%Z) t_eps)) /\
  ((a * b <=? 0) = true -> (r0 <? p_of v t_eps) = false -> (a <? 0) = false ->
   length (walk_trace b a v t_eps (r0 :: rest)) = 1%nat /\
   random_walk b a v t_eps (r0 :: rest) = Done (mkResult 0 t_eps)).
Proof.
  intros Ht. destruct (delta_nonneg t_eps Ht) as [Nd Pd].
  set (s1 := body (delta_of t_eps) (p_of v t_eps) r0 (init b a)).
  split.
  - intros Hs Hr.
    assert (E : x s1 = a * b + delta_of t_eps) by (unfold s1; cbn [body x init]; rewrite Hr; reflexivity).
    assert (C : continue a s1 = false).
    { unfold continue. rewrite E, (up_from_barrier _ _ _ Hs Nd Pd). reflexivity. }
    destruct (one_iteration b a v t_eps r0 rest C) as [T R]. fold s1 in T, R.
    split; [rewrite T; reflexivity|]. rewrite R. unfold classify. rewrite E. reflexivity.
  - intros Hs Hr Ha.
    assert (E : x s1 = a * b - delta_of t_eps) by (unfold s1; cbn [body x init]; rewrite Hr; reflexivity).
    destruct (down_from_nonpositive _ _ Hs Nd Pd) as [N L].
    assert (Z0 : (0 <? x s1) = false).
    { rewrite E. destruct (0 <? a * b - delta_of t_eps) eqn:G; [|reflexivity].
      apply ltb_true_R in G. rewrite (proj2 F_zero) in G. lra. }
    assert (C : continue a s1 = false).
    { unfold continue. rewrite Z0. apply andb_false_r. }
    destruct (one_iteration b a v t_eps r0 rest C) as [T R]. fold s1 in T, R.
    split; [rewrite T; reflexivity|]. rewrite R. unfold classify. rewrite E.
    destruct (a <? a * b - delta_of t_eps) eqn:G; [exfalso|reflexivity].
    destruct (ltb_nonnan _ _ G) as [Na _]. apply ltb_true_R in G.
    assert (K : (a <? 0) = true).
    { apply ltb_R; [exact Na|exact F_zero_nan|]. rewrite (proj2 F_zero). lra. }
    congruence.
Qed.

Lemma start_on_barrier_witness :
  (0 <=? 0.25) = true /\
  (1 <=? 1 * 1) = true /\ (0.25 <? p_of 0 0.25) = true /\
  random_walk 1 1 0 0.25 [0.25] = Done (mkResult 1 0.25) /\
  (1 * 0 <=? 0) = true /\ (0.75 <? p_of 0 0.25) = false /\ (1 <? 0) = false /\
  random_walk 0 1 0 0.25 [0.75] = Done (mkResult 0 0.25).
Proof.
  split; [reflexivity|]. split; [reflexivity|]. split; [reflexivity|].
  split; [exact (proj2 (proj1 (start_on_barrier 1 1 0 0.25 0.25 [] eq_refl) eq_refl eq_refl))|].
  split; [reflexivity|]. split; [reflexivity|]. split; [reflexivity|].
  exact (proj2 (proj2 (start_on_barrier 0 1 0 0.25 0.75 [] eq_refl) eq_refl eq_refl eq_refl)).
Defined.

(** ** The up-step probability [p] *)

Lemma F_two : Ffinite 2 = true /\ FR 2 = 2%R.
Proof.
  split; [reflexivity|]. unfold FR.
  replace (Prim2SF 2) with (S754_finite false 4503599627370496 (-51)) by reflexivity.
  cbn [SF2R cond_Zopp]. change 4503599627370496%Z with (1 * 2 ^ 52)%Z.
  rewrite F2R_shift by lia. unfold F2R, bpow. cbn. unfold Pos.to_nat. cbn. lra.
Qed.

Lemma F_half : Ffinite 0.5 = true /\ FR 0.5 = (/ 2)%R.
Proof.
  split; [reflexivity|]. unfold FR.
  replace (Prim2SF 0.5) with (S754_finite false 4503599627370496 (-53)) by reflexivity.
  cbn [SF2R cond_Zopp]. change 4503599627370496%Z with (1 * 2 ^ 52)%Z.
  rewrite F2R_shift by lia. unfold F2R, bpow. cbn. unfold Pos.to_nat. cbn. lra.
Qed.

Lemma F_minus_one : Ffinite (-1) = true /\ FR (-1) = (-1)%R.
Proof.
  split; [reflexivity|]. unfold FR.
  replace (Prim2SF (-1)) with (S754_finite true 4503599627370496 (-52)) by reflexivity.
  rewrite SF2R_finite. cbn [signed]. change 4503599627370496%Z with (1 * 2 ^ 52)%Z.
  rewrite F2R_shift by lia. unfold F2R. cbn. lra.
Qed.

Lemma OMEGA_gt_4 : (4 <= OMEGA)%R.
Proof.
  unfold OMEGA. replace 4%R with (bpow 2) by (unfold bpow; cbn; unfold Pos.to_nat; cbn; lra).
  apply bpow_le. lia.
Qed.


Lemma half_one_plus_ge_one (y : float) :
  (1 <=? y) = true -> (1 <=? 0.5 * (1 + y)) = true.
Proof.
  intros L. pose proof OMEGA_gt_4 as HO.
  destruct (leb_nonnan _ _ L) as [_ Ny]. apply leb_true_R in L.
  rewrite (proj2 F_one) in L.
  assert (Hs : Fnan (1 + y) = false /\ (2 <= FR (1 + y))%R).
  { destruct (F_class_nonneg y Ny ltac:(lra)) as [Fy|Iy].
    - destruct (add_R _ _ (proj1 F_one) Fy) as [Ns Rs]. rewrite (proj2 F_one) in Rs.
      split; [exact Ns|]. rewrite <- (proj2 F_two).
      apply (rounds_to_ge 2 _ _ (proj1 F_two) Rs). rewrite (proj2 F_two). lra.
    - assert (E : Prim2SF (1 + y) = S754_infinity false) by (rewrite add_spec, Iy; reflexivity).
      destruct (FR_pinf _ E) as [V N]. split; [exact N|lra]. }
  destruct Hs as [Ns S2].
  destruct (F_class_nonneg (1 + y) Ns ltac:(lra)) as [Fs|Is].
  - destruct (mul_R _ _ (proj1 F_half) Fs) as [Np Rp]. rewrite (proj2 F_half) in Rp.
    apply leb_R; [reflexivity|exact Np|].
    apply (rounds_to_ge 1 _ _ (proj1 F_one) Rp). rewrite (proj2 F_one). lra.
  - assert (E : Prim2SF (0.5 * (1 + y)) = S754_infinity false) by (rewrite mul_spec, Is; reflexivity).
    destruct (FR_pinf _ E) as [V N]. apply leb_R; [reflexivity|exact N|].
    rewrite (proj2 F_one). lra.
Qed.

Lemma half_one_plus_le_zero (y : float) :
  (y <=? -1) = true -> (0.5 * (1 + y) <=? 0) = true.
Proof.
  intros U. pose proof OMEGA_gt_4 as HO.
  destruct (leb_nonnan _ _ U) as [Ny _]. apply leb_true_R in U.
  rewrite (proj2 F_minus_one) in U.
  assert (Hs : Fnan (1 + y) = false /\ (FR (1 + y) <= 0)%R).
  { destruct (F_class y) as [C|[Fy|[Iy|Iy]]]; [congruence| | |].
    - destruct (add_R _ _ (proj1 F_one) Fy) as [Ns Rs]. rewrite (proj2 F_one) in Rs.
      split; [exact Ns|]. rewrite <- (proj2 F_zero).
      apply (rounds_to_le 0 _ _ (proj1 F_zero) Rs). rewrite (proj2 F_zero). lra.
    - destruct (FR_pinf _ Iy). lra.
    - assert (E : Prim2SF (1 + y) = S754_infinity true) by (rewrite add_spec, Iy; reflexivity).
      destruct (FR_ninf _ E) as [V N]. split; [exact N|lra]. }
  destruct Hs as [Ns S0].
  destruct (F_class (1 + y)) as [C|[Fs|[Is|Is]]]; [congruence| | |].
  - destruct (mul_R _ _ (proj1 F_half) Fs) as [Np Rp]. rewrite (proj2 F_half) in Rp.
    apply leb_R; [exact Np|exact F_zero_nan|].
    apply (rounds_to_le 0 _ _ (proj1 F_zero) Rp). rewrite (proj2 F_zero). lra.
  - destruct (FR_pinf _ Is). lra.
  - assert (E : Prim2SF (0.5 * (1 + y)) = S754_infinity true) by (rewrite mul_spec, Is; reflexivity).
    destruct (FR_ninf _ E) as [V N]. apply leb_R; [exact N|exact F_zero_nan|].
    rewrite (proj2 F_zero). lra.
Qed.



(** X9. A drift strong enough to push [p] out of [[0, 1]] makes the walk
    one-directional.  With every draw in [[0, 1)]: if [v * delta >= 1] every
    iteration takes the upward step, and if [v * delta <= -1] every
    iteration takes the downward step.  If [p] is a NaN every iteration
    takes the downward step, whatever the draws. *)
Theorem saturated_drift (b a v t_eps : float) (draws : list float) (k : nat) (t : state) :
  nth_error (walk_trace b a v t_eps draws) k = Some t ->
  exists s0,
    nth_error (init b a :: walk_trace b a v t_eps draws) k = Some s0 /\
    (Forall (fun r => (0 <=? r) = true /\ (r <? 1) = true) draws ->
     ((1 <=? v * delta_of t_eps) = true -> x t = x s0 + delta_of t_eps) /\
     ((v * delta_of t_eps <=? -1) = true -> x t = x s0 - delta_of t_eps)) /\
    (is_nan (p_of v t_eps) = true -> x t = x s0 - delta_of t_eps).
Proof.
  intros H. unfold walk_trace in *.
  destruct (trace_step _ _ _ _ _ _ _ H) as (r & s0 & D & P & ->).
  exists s0. split; [exact P|]. cbn [body x]. split.
  - intros HF. apply nth_error_In in D. rewrite Forall_forall in HF.
    destruct (HF r D) as [R0 R1]. split; intros E.
    + apply half_one_plus_ge_one in E. fold (p_of v t_eps) in E.
      assert (G : (r <? p_of v t_eps) = true).
      { destruct (ltb_nonnan _ _ R1) as [Nr _]. destruct (leb_nonnan _ _ E) as [_ Np].
        apply ltb_R; [exact Nr|exact Np|].
        apply ltb_true_R in R1. apply leb_true_R in E. lra. }
      rewrite G. reflexivity.
    + apply half_one_plus_le_zero in E. fold (p_of v t_eps) in E.
      assert (G : (r <? p_of v t_eps) = false).
      { destruct (r <? p_of v t_eps) eqn:G; [|reflexivity].
        apply ltb_true_R in G. apply leb_true_R in R0, E. lra. }
      rewrite G. reflexivity.
  - intros N. rewrite is_nan_Fnan in N. rewrite (ltb_nan r _ (or_intror N)). reflexivity.
Qed.

Lemma saturated_drift_witness :
  nth_error (walk_trace 0.5 1 (-8) 0.0625 [0.25; 0.5]) 1 = Some (mkState 0 2) /\
  (-8 * delta_of 0.0625 <=? -1) = true /\
  exists s0,
    nth_error (init 0.5 1 :: walk_trace 0.5 1 (-8) 0.0625 [0.25; 0.5]) 1 = Some s0 /\
    (Forall (fun r => (0 <=? r) = true /\ (r <? 1) = true) [0.25; 0.5] ->
     ((1 <=? -8 * delta_of 0.0625) = true -> x (mkState 0 2) = x s0 + delta_of 0.0625) /\
     ((-8 * delta_of 0.0625 <=? -1) = true -> x (mkState 0 2) = x s0 - delta_of 0.0625)) /\
    (is_nan (p_of (-8) 0.0625) = true -> x (mkState 0 2) = x s0 - delta_of 0.0625).
Proof.
  split; [reflexivity|]. split; [reflexivity|].
  exact (saturated_drift 0.5 1 (-8) 0.0625 [0.25; 0.5] 1 (mkState 0 2) eq_refl).
Defined.

(** ** No drift *)

(** X10. With [v = 0] (either zero) and a finite step [delta], [p] is
    exactly one half: the product [v * delta] is a zero and [1 + 0 = 1]
    without rounding.  (With an infinite or NaN [delta] the product, and [p],
    are NaN.) *)
Theorem zero_drift_half (v t_eps : float) :
  (v =? 0) = true -> (delta_of t_eps <? infinity) = true ->
  p_of v t_eps = 0.5.
Proof.
  intros Hv Hd. pose proof OMEGA_pos as HO.
  destruct (ltb_nonnan _ _ Hd) as [Nd _]. apply ltb_true_R in Hd.
  replace (FR infinity) with OMEGA in Hd by reflexivity.
  pose proof (sqrt_not_nan_nonneg t_eps Nd) as Pd. fold (delta_of t_eps) in Pd.
  assert (Fd : Ffinite (delta_of t_eps) = true).
  { destruct (F_class_nonneg _ Nd Pd) as [F|I]; [exact F|]. destruct (FR_pinf _ I). lra. }
  assert (Z1 : exists s, Prim2SF (v * delta_of t_eps) = S754_zero s).
  { rewrite eqb_spec in Hv. unfold SFeqb in Hv.
    replace (Prim2SF 0) with (S754_zero false) in Hv by reflexivity.
    unfold Ffinite in Fd. rewrite mul_spec. unfold SF64mul.
    destruct (Prim2SF v) as [s|s| |s m e]; cbn [SFcompare] in Hv; try discriminate.
    - destruct (Prim2SF (delta_of t_eps)) as [s'|s'| |s' m' e']; try discriminate;
        cbn [SFmul]; eauto.
    - destruct s; discriminate.
    - destruct s; discriminate. }
  destruct Z1 as [s Z1].
  assert (E : 1 + v * delta_of t_eps = 1).
  { apply Prim2SF_inj. rewrite add_spec, Z1. reflexivity. }
  unfold p_of. rewrite E. reflexivity.
Qed.

Lemma zero_drift_half_witness :
  (0 =? 0) = true /\ (delta_of 0.0625 <? infinity) = true /\ p_of 0 0.0625 = 0.5.
Proof.
  split; [reflexivity|]. split; [reflexivity|].
  exact (zero_drift_half 0 0.0625 eq_refl eq_refl).
Defined.

(** ** An infinite barrier *)

(** Below, [inf_or_nan u] reads: [u] is a NaN or an infinity. *)
#[local] Abbreviation inf_or_nan u :=
  (Prim2SF u = S754_nan \/ exists s, Prim2SF u = S754_infinity s).

Lemma inf_or_nan_mul (a b : float) :
  Prim2SF a = S754_infinity false -> inf_or_nan (a * b).
Proof.
  intros A. rewrite mul_spec, A. unfold SF64mul.
  destruct (Prim2SF b) as [s|s| |s m e]; cbn [SFmul]; eauto.
Qed.

Lemma inf_or_nan_step (x0 d : float) :
  inf_or_nan x0 -> inf_or_nan (x0 + d) /\ inf_or_nan (x0 - d).
Proof.
  rewrite add_spec, sub_spec. unfold SF64add, SF64sub.
  intros [E|[s E]]; rewrite E.
  - split; left; reflexivity.
  - destruct s, (Prim2SF d) as [s'|[]| |s' m e]; cbn [SFadd SFsub Bool.eqb negb];
      split; eauto.
Qed.

Lemma inf_or_nan_tests (a x1 : float) :
  Prim2SF a = S754_infinity false -> inf_or_nan x1 ->
  (x1 <? a) && (0 <? x1) = false /\ (a <? x1) = false.
Proof.
  intros A H. rewrite !ltb_spec, A. unfold SFltb.
  replace (Prim2SF 0) with (S754_zero false) by reflexivity.
  destruct H as [E|[s E]]; rewrite E; [split; reflexivity|].
  destruct s; split; reflexivity.
Qed.

(** X11. With [a = +infinity] the start [a * b] is an infinity or a NaN and
    so is the position after one step: the loop test fails at once and
    [x > a] is false, so every call that gets one draw returns after exactly
    one iteration with [choice = 0] and [time = t_eps], whatever [b], [v],
    [t_eps] and the draw are. *)
Theorem infinite_barrier (b a v t_eps r0 : float) (rest : list float) :
  (a =? infinity) = true ->
  length (walk_trace b a v t_eps (r0 :: rest)) = 1%nat /\
  random_walk b a v t_eps (r0 :: rest) = Done (mkResult 0 t_eps).
Proof.
  intros H.
  assert (A : Prim2SF a = S754_infinity false).
  { rewrite eqb_spec in H. unfold SFeqb in H.
    replace (Prim2SF infinity) with (S754_infinity false) in H by reflexivity.
    destruct (Prim2SF a) as [s|s| |s m e]; cbn [SFcompare] in H; try discriminate.
    destruct s; [discriminate|reflexivity]. }
  set (s1 := body (delta_of t_eps) (p_of v t_eps) r0 (init b a)).
  assert (I : inf_or_nan (x s1)).
  { destruct (inf_or_nan_step (a * b) (delta_of t_eps) (inf_or_nan_mul a b A)) as [U D].
    unfold s1. cbn [body x init]. destruct (r0 <? p_of v t_eps); assumption. }
  destruct (inf_or_nan_tests a (x s1) A I) as [C K].
  destruct (one_iteration b a v t_eps r0 rest C) as [T R]. fold s1 in T, R.
  split; [rewrite T; reflexivity|]. rewrite R. unfold classify. rewrite K. reflexivity.
Qed.

Lemma infinite_barrier_witness :
  (infinity =? infinity) = true /\
  random_walk 0.5 infinity 0 0.0625 [0.25] = Done (mkResult 0 0.0625).
Proof.
  split; [reflexivity|].
  exact (proj2 (infinite_barrier 0.5 infinity 0 0.0625 0.25 [] eq_refl)).
Defined.

(** ** The start and the direction of a step *)

(** X12. The start is the rounded product [a * b].  For a finite [a >= 0]
    and [0 <= b <= 1] it lies in [[0, a]], both ends included (the product
    of a positive [a] with a [b] strictly between 0 and 1 can be rounded
    onto either end). *)
Theorem start_within_barriers (b a : float) :
  (0 <=? a) = true -> (a <? infinity) = true ->
  (0 <=? b) = true -> (b <=? 1) = true ->
  (0 <=? x (init b a)) = true /\ (x (init b a) <=? a) = true.
Proof.
  intros A0 Ai B0 B1. pose proof OMEGA_gt_4 as HO. cbn [init x].
  destruct (leb_nonnan _ _ A0) as [_ Na]. destruct (leb_nonnan _ _ B0) as [_ Nb].
  apply leb_true_R in A0, B0, B1. apply ltb_true_R in Ai.
  replace (FR infinity) with OMEGA in Ai by reflexivity.
  rewrite (proj2 F_zero) in *. rewrite (proj2 F_one) in B1.
  assert (Fa : Ffinite a = true) by (apply Ffinite_of_bounds; [exact Na|lra]).
  assert (Fb : Ffinite b = true) by (apply Ffinite_of_bounds; [exact Nb|lra]).
  destruct (mul_R _ _ Fa Fb) as [N Rm]. split.
  - apply leb_R; [exact F_zero_nan|exact N|].
    apply (rounds_to_ge 0 _ _ (proj1 F_zero) Rm). rewrite (proj2 F_zero). nra.
  - apply leb_R; [exact N|exact Na|].
    apply (rounds_to_le a _ _ Fa Rm). nra.
Qed.

Lemma start_within_barriers_witness :
  (0 <=? 0x1p-1074) = true /\ (0x1p-1074 <? infinity) = true /\
  (0 <=? 0.25) = true /\ (0.25 <=? 1) = true /\
  x (init 0.25 0x1p-1074) = 0 /\
  (0 <=? x (init 0.25 0x1p-1074)) = true /\ (x (init 0.25 0x1p-1074) <=? 0x1p-1074) = true.
Proof.
  split; [reflexivity|]. split; [reflexivity|]. split; [reflexivity|].
  split; [reflexivity|]. split; [reflexivity|].
  exact (start_within_barriers 0.25 0x1p-1074 eq_refl eq_refl eq_refl eq_refl).
Defined.

(** Every iteration of a run from strictly inside the interval starts from a
    position strictly inside the interval. *)
Lemma step_from_inside (b a v t_eps : float) (draws : list float) (k : nat) (t : state) :
  (0 <? a * b) = true -> (a * b <? a) = true ->
  nth_error (walk_trace b a v t_eps draws) k = Some t ->
  exists r s0,
    nth_error draws k = Some r /\
    nth_error (init b a :: walk_trace b a v t_eps draws) k = Some s0 /\
    t = body (delta_of t_eps) (p_of v t_eps) r s0 /\
    (0 <? x s0) = true /\ (x s0 <? a) = true.
Proof.
  intros I0 Ia H. unfold walk_trace in *.
  destruct (trace_step _ _ _ _ _ _ _ H) as (r & s0 & D & P & E).
  exists r, s0. split; [exact D|]. split; [exact P|]. split; [exact E|].
  destruct k as [|j]; cbn [nth_error] in P.
  - injection P as <-. cbn [init x]. auto.
  - assert (L : S j < length (trace a (delta_of t_eps) (p_of v t_eps) draws (init b a))).
    { apply nth_error_Some. congruence. }
    pose proof (trace_continue _ _ _ _ _ _ _ P L) as K.
    unfold continue in K. apply andb_prop in K. destruct K. auto.
Qed.

(** X13. For [t_eps >= 0] and a start strictly between the barriers, no
    step goes against its direction: after a draw below [p] the position is
    at least the previous one, after any other draw it is at most the
    previous one.  Equality is possible (the step can be lost in rounding). *)
Theorem step_direction (b a v t_eps : float) (draws : list float) (k : nat) (t : state) :
  (0 <=? t_eps) = true -> (0 <? a * b) = true -> (a * b <? a) = true ->
  nth_error (walk_trace b a v t_eps draws) k = Some t ->
  exists r s0,
    nth_error draws k = Some r /\
    nth_error (init b a :: walk_trace b a v t_eps draws) k = Some s0 /\
    ((r <? p_of v t_eps) = true -> (x s0 <=? x t) = true) /\
    ((r <? p_of v t_eps) = false -> (x t <=? x s0) = true).
Proof.
  intros Ht I0 Ia H. pose proof OMEGA_pos as HO.
  destruct (step_from_inside _ _ _ _ _ _ _ I0 Ia H) as (r & s0 & D & P & -> & P0 & Pa).
  destruct (delta_nonneg t_eps Ht) as [Nd Pd].
  exists r, s0. split; [exact D|]. split; [exact P|].
  destruct (ltb_nonnan _ _ Pa) as [Nx Na].
  apply ltb_true_R in P0, Pa. rewrite (proj2 F_zero) in P0.
  pose proof (FR_bounds a) as Ba.
  assert (Fx : Ffinite (x s0) = true) by (apply Ffinite_of_bounds; [exact Nx|lra]).
  cbn [body x]. split; intros R; rewrite R.
  - destruct (F_class_nonneg _ Nd Pd) as [Fd|Id].
    + destruct (add_R _ _ Fx Fd) as [N Rx]. apply leb_R; [exact Nx|exact N|].
      apply (rounds_to_ge (x s0) _ _ Fx Rx). lra.
    + assert (E : Prim2SF (x s0 + delta_of t_eps) = S754_infinity false).
      { apply add_pinf_r; [exact Nx| |exact Id]. intros C.
        unfold Ffinite in Fx. rewrite C in Fx. discriminate. }
      destruct (FR_pinf _ E) as [V N]. apply leb_R; [exact Nx|exact N|]. lra.
  - destruct (F_class_nonneg _ Nd Pd) as [Fd|Id].
    + destruct (sub_R _ _ Fx Fd) as [N Rx]. apply leb_R; [exact N|exact Nx|].
      apply (rounds_to_le (x s0) _ _ Fx Rx). lra.
    + destruct (FR_ninf _ (sub_pinf_r _ _ Fx Id)) as [V N].
      apply leb_R; [exact N|exact Nx|]. lra.
Qed.

Lemma step_direction_witness :
  exists r s0,
    nth_error [0.25; 0.75] 1 = Some r /\
    nth_error (init 0.5 1 :: walk_trace 0.5 1 0 0.0625 [0.25; 0.75]) 1 = Some s0 /\
    ((r <? p_of 0 0.0625) = true -> (x s0 <=? x (mkState 0.5 2)) = true) /\
    ((r <? p_of 0 0.0625) = false -> (x (mkState 0.5 2) <=? x s0) = true).
Proof.
  exact (step_direction 0.5 1 0 0.0625 [0.25; 0.75] 1 (mkState 0.5 2)
           eq_refl eq_refl eq_refl eq_refl).
Defined.

(** Both ends are reached: with the smallest positive double as [a], the
    start for [b = 0.25] is 0 and the start for [b = 0.75] is [a]. *)
Lemma start_rounded_onto_barrier :
  x (init 0.25 0x1p-1074) = 0 /\ x (init 0.75 0x1p-1074) = 0x1p-1074.
Proof. split; reflexivity. Qed.
